(** * sqrl.crypto: key derivation, stretching, nonces and the key hierarchy

    A shallow embedding of [sqrl/crypto.py].  Python values are modelled
    as the code has them: [bytes] as lists of bytes, [int] as [Z], raised
    exceptions as an error result, mutable objects ([Nonce], the random
    generator, the process clock) by explicit state passing.

    The primitives the module takes from libsodium for hashing and
    stretching (SHA-256 and the scrypt low-level KDF) are written out
    after FIPS 180-4 and RFC 7914, so that [enhash], [Nonce] and
    [enscrypt] can be evaluated.  The seeded generator [random.Random]
    and the signature primitives of pysodium are taken as interfaces.
    The AES-GCM wrappers [encrypt] and [decrypt] are not covered. *)

From Stdlib Require Import ZArith List Lia Bool String Ascii.
From Stdlib Require Import Strings.Byte.
Import ListNotations.
Local Open Scope Z_scope.

(** ** Python values and exceptions *)

Definition bytes := list byte.

Inductive exn : Type :=
| NameError (name : string)
| AssertionError
| OverflowError
| ValueError
| TypeError.

Inductive result (A : Type) : Type :=
| Ok (a : A)
| Raise (e : exn).
Arguments Ok {A} a.
Arguments Raise {A} e.

Definition bind {A B} (r : result A) (k : A -> result B) : result B :=
  match r with
  | Ok a => k a
  | Raise e => Raise e
  end.

Declare Scope py_scope.
Delimit Scope py_scope with py.
Notation "x <- c ;; k" := (bind c (fun x => k))
  (at level 61, c at next level, right associativity) : py_scope.

Definition is_ok {A} (r : result A) : bool :=
  match r with Ok _ => true | Raise _ => false end.

(** ** Bytes and integers *)

Definition byte_to_Z (b : byte) : Z := Z.of_N (Byte.to_N b).

Definition Z_to_byte (z : Z) : byte :=
  match Byte.of_N (Z.to_N (Z.land z 255)) with
  | Some b => b
  | None => x00
  end.

(** [len(b)] *)
Definition len {A} (l : list A) : Z := Z.of_nat (List.length l).

(** [bytes(n)] / [create_string_buffer(n).raw]: [n] zero bytes. *)
Definition zero_bytes (n : Z) : bytes := repeat x00 (Z.to_nat n).

(** [int.from_bytes(b, 'little')] *)
Fixpoint int_from_bytes_le (b : bytes) : Z :=
  match b with
  | [] => 0
  | x :: r => byte_to_Z x + 256 * int_from_bytes_le r
  end.

(** The [n] low base-256 digits of [z], least significant first. *)
Fixpoint le_digits (n : nat) (z : Z) : bytes :=
  match n with
  | O => []
  | S k => Z_to_byte z :: le_digits k (Z.shiftr z 8)
  end.

(** [z.to_bytes(length, 'little')] (unsigned): a negative length is a
    [ValueError], a negative or too large integer an [OverflowError]. *)
Definition int_to_bytes_le (z length : Z) : result bytes :=
  if length <? 0 then Raise ValueError
  else if z <? 0 then Raise OverflowError
  else if 2 ^ (8 * length) <=? z then Raise OverflowError
  else Ok (le_digits (Z.to_nat length) z).

(** Big-endian digits, used inside SHA-256 and PBKDF2. *)
Definition be_digits (n : nat) (z : Z) : bytes := rev (le_digits n z).

Definition int_from_bytes_be (b : bytes) : Z := int_from_bytes_le (rev b).

(** [b[:n]] with Python's slice rule for a negative bound. *)
Definition slice_to {A} (l : list A) (n : Z) : list A :=
  if n <? 0 then firstn (Z.to_nat (len l + n)) l
  else firstn (Z.to_nat n) l.

(** Cut a list into consecutive pieces of [n] elements. *)
Fixpoint chunks_fuel {A} (fuel n : nat) (l : list A) : list (list A) :=
  match fuel with
  | O => []
  | S f =>
      match l with
      | [] => []
      | _ => firstn n l :: chunks_fuel f n (skipn n l)
      end
  end.

Definition chunks {A} (n : nat) (l : list A) : list (list A) :=
  chunks_fuel (List.length l) n l.

(** ** SHA-256 (FIPS 180-4), [crypto_hash_sha256] *)

Module SHA256.

Definition w32 (x : Z) : Z := Z.land x 0xffffffff.
Definition add32 (x y : Z) : Z := w32 (x + y).
Definition rotr (n x : Z) : Z :=
  Z.lor (Z.shiftr x n) (w32 (Z.shiftl x (32 - n))).
Definition not32 (x : Z) : Z := 4294967295 - x.

Definition Ch (x y z : Z) : Z := Z.lxor (Z.land x y) (Z.land (not32 x) z).
Definition Maj (x y z : Z) : Z :=
  Z.lxor (Z.lxor (Z.land x y) (Z.land x z)) (Z.land y z).
Definition bsig0 (x : Z) : Z :=
  Z.lxor (Z.lxor (rotr 2 x) (rotr 13 x)) (rotr 22 x).
Definition bsig1 (x : Z) : Z :=
  Z.lxor (Z.lxor (rotr 6 x) (rotr 11 x)) (rotr 25 x).
Definition ssig0 (x : Z) : Z :=
  Z.lxor (Z.lxor (rotr 7 x) (rotr 18 x)) (Z.shiftr x 3).
Definition ssig1 (x : Z) : Z :=
  Z.lxor (Z.lxor (rotr 17 x) (rotr 19 x)) (Z.shiftr x 10).

(** The primes up to 311, the first 64 of them, by trial division. *)
Definition is_prime (p : Z) : bool :=
  (1 <? p) &&
  forallb (fun d => negb (p mod Z.of_nat d =? 0)) (seq 2 (Z.to_nat (p - 2))).

Definition primes : list Z :=
  Eval vm_compute in filter is_prime (map Z.of_nat (seq 0 312)).

(** Integer cube root by bisection on the bits below [2^k]. *)
Fixpoint cbrt_bits (k : nat) (r n : Z) : Z :=
  match k with
  | O => r
  | S k' =>
      let r' := r + 2 ^ Z.of_nat k' in
      if r' * r' * r' <=? n then cbrt_bits k' r' n else cbrt_bits k' r n
  end.

(** The round constants: the first 32 bits of the fractional parts of
    the cube roots of the first 64 primes. *)
Definition K : list Z :=
  Eval vm_compute in
    map (fun p => w32 (cbrt_bits 40 0 (p * 2 ^ 96))) primes.

(** The eight working variables / the hash value. *)
Record state : Type := mkState
  { ha : Z; hb : Z; hc : Z; hd : Z; he : Z; hf : Z; hg : Z; hh : Z }.

(** The initial hash value: the first 32 bits of the fractional parts of
    the square roots of the first 8 primes. *)
Definition frac_sqrt (p : Z) : Z := w32 (Z.sqrt (p * 2 ^ 64)).

Definition H0 : state :=
  Eval vm_compute in
    mkState (frac_sqrt 2) (frac_sqrt 3) (frac_sqrt 5) (frac_sqrt 7)
            (frac_sqrt 11) (frac_sqrt 13) (frac_sqrt 17) (frac_sqrt 19).

(** Padding: a one bit, zeros up to 56 mod 64, the bit length on 8 bytes. *)
Definition pad (m : bytes) : bytes :=
  let l := len m in
  m ++ [x80] ++ zero_bytes ((55 - l) mod 64) ++ be_digits 8 (8 * l).

(** Message schedule, kept newest first while it is extended. *)
Fixpoint extend (n : nat) (rw : list Z) : list Z :=
  match n with
  | O => rw
  | S k =>
      let wt := add32 (add32 (ssig1 (nth 1 rw 0)) (nth 6 rw 0))
                      (add32 (ssig0 (nth 14 rw 0)) (nth 15 rw 0)) in
      extend k (wt :: rw)
  end.

Definition schedule (block : bytes) : list Z :=
  rev (extend 48 (rev (map int_from_bytes_be (chunks 4 block)))).

Definition round (s : state) (kw : Z * Z) : state :=
  let t1 := add32 (add32 (add32 (hh s) (bsig1 (he s)))
                         (add32 (Ch (he s) (hf s) (hg s)) (fst kw)))
                  (snd kw) in
  let t2 := add32 (bsig0 (ha s)) (Maj (ha s) (hb s) (hc s)) in
  mkState (add32 t1 t2) (ha s) (hb s) (hc s)
          (add32 (hd s) t1) (he s) (hf s) (hg s).

Definition compress (h : state) (block : bytes) : state :=
  let s := fold_left round (combine K (schedule block)) h in
  mkState (add32 (ha h) (ha s)) (add32 (hb h) (hb s))
          (add32 (hc h) (hc s)) (add32 (hd h) (hd s))
          (add32 (he h) (he s)) (add32 (hf h) (hf s))
          (add32 (hg h) (hg s)) (add32 (hh h) (hh s)).

Definition digest (h : state) : bytes :=
  be_digits 4 (ha h) ++ be_digits 4 (hb h) ++ be_digits 4 (hc h) ++
  be_digits 4 (hd h) ++ be_digits 4 (he h) ++ be_digits 4 (hf h) ++
  be_digits 4 (hg h) ++ be_digits 4 (hh h).

Definition hash (m : bytes) : bytes :=
  digest (fold_left compress (chunks 64 (pad m)) H0).

End SHA256.

Arguments SHA256.hash : simpl never.

(** [crypto_hash_sha256(out, in, inlen)]: the digest of the first [inlen]
    bytes of [in], written to [out]. *)
Definition crypto_hash_sha256 (input : bytes) (inlen : Z) : bytes :=
  SHA256.hash (firstn (Z.to_nat inlen) input).

(** ** Constants of the package *)

(** Modelled from the spec: [KEY_BYTES] is imported from the package's
    [__init__], which is not part of the sources at hand; the spec fixes
    every key of the hierarchy at 32 bytes. *)
Definition KEY_BYTES : Z := 32.

(** [pysodium.crypto_secretbox_NONCEBYTES] *)
Definition crypto_secretbox_NONCEBYTES : Z := 24.

(** ** [sha256sum] *)

Definition sha256sum (b : bytes) (nbytes : Z) : bytes :=
  let out := crypto_hash_sha256 b (len b) in
  slice_to out nbytes.

(** ** [class Nonce] *)

Module Nonce.

Record t : Type := mk
  { _bytes : Z; _count : Z; _prefix : bytes }.


(** [Nonce.__init__]: [fresh] stands for the 16 bytes [rng.randombytes]
    hands out when no prefix is given. *)
Definition __init__ (nbytes start : Z) (prefix : option bytes)
    (fresh : bytes) : t :=
  mk nbytes start
          (match prefix with None => fresh | Some p => p end).

(** [Nonce.__next__]: the counter is stepped by the tuple assignment
    before the old value is encoded, so the stepped object is what the
    caller is left with also when the encoding raises. *)
Definition __next__ (self : t) : result bytes * t :=
  let c := _count self in
  let self' := mk (_bytes self) (_count self + 1) (_prefix self) in
  ((enc <- int_to_bytes_le c (_bytes self') ;;
    Ok (sha256sum (_prefix self' ++ enc) (_bytes self')))%py,
   self').

Definition __getstate__ (self : t) : Z * Z * bytes :=
  (_bytes self, _count self, _prefix self).

(** [Nonce.__setstate__(s)]: [self.__init__] called on the three saved
    values. *)
Definition __setstate__ (s : Z * Z * bytes) (fresh : bytes) : t :=
  let '(nbytes, count, prefix) := s in
  __init__ nbytes count (Some prefix) fresh.

(** [n] successive draws: the drawn values (oldest first) and the
    object afterwards. *)
Fixpoint draws (n : nat) (self : t) : list (result bytes) * t :=
  match n with
  | O => ([], self)
  | S k =>
      let (r, self1) := __next__ self in
      let (rs, self2) := draws k self1 in
      (r :: rs, self2)
  end.

End Nonce.

(** ** [enhash] *)

(** [for i in range(lo, hi): s = body i s] *)
Fixpoint for_range_from {S : Type} (n : nat) (i : Z) (body : Z -> S -> S)
    (s : S) : S :=
  match n with
  | O => s
  | Datatypes.S k => for_range_from k (i + 1) body (body i s)
  end.

Definition for_range {S : Type} (lo hi : Z) (body : Z -> S -> S) (s : S) : S :=
  for_range_from (Z.to_nat (hi - lo)) lo body s.

(** One turn of the loop of [enhash]: re-hash the buffer [u] in place and
    fold the digest into [acc]. *)
Definition enhash_step (_ : Z) (st : bytes * Z) : bytes * Z :=
  let u := crypto_hash_sha256 (fst st) KEY_BYTES in
  (u, Z.lxor (snd st) (int_from_bytes_le u)).

Definition enhash (data : bytes) (iterations : Z) : result bytes :=
  if negb (len data =? KEY_BYTES) then Raise AssertionError
  else
    let u := crypto_hash_sha256 data KEY_BYTES in
    let acc := int_from_bytes_le u in
    let '(_, acc) := for_range 1 iterations enhash_step (u, acc) in
    int_to_bytes_le acc 32.

(** The keyword default [iterations=16]. *)
Definition enhash_default (data : bytes) : result bytes := enhash data 16.

(** The hash chain in the words of the specification: round [k] (from 0)
    outputs the [k+1]-fold hash of the input; all round outputs, read as
    little-endian integers, are XORed together and the result is laid out
    on 32 little-endian bytes. *)
Definition round_output (x : bytes) (k : nat) : bytes :=
  Nat.iter (Datatypes.S k) SHA256.hash x.

Definition HashChain (x : bytes) (rounds : nat) : bytes :=
  le_digits 32
    (fold_right Z.lxor 0
       (map (fun k => int_from_bytes_le (round_output x k)) (seq 0 rounds))).

(** XOR of the first [n] round outputs. *)
Definition xor_rounds (x : bytes) (n : nat) : Z :=
  fold_right Z.lxor 0
    (map (fun k => int_from_bytes_le (round_output x k)) (seq 0 n)).

(** ** scrypt (RFC 7914), [crypto_pwhash_scryptsalsa208sha256_ll] *)

Module Scrypt.

Definition xor_bytes (a b : bytes) : bytes :=
  map (fun xy => Z_to_byte (Z.lxor (byte_to_Z (fst xy)) (byte_to_Z (snd xy))))
      (combine a b).

(** HMAC-SHA-256 (RFC 2104): keys longer than a block are hashed first. *)
Definition hmac (key msg : bytes) : bytes :=
  let k0 := if 64 <? len key then SHA256.hash key else key in
  let k := k0 ++ zero_bytes (64 - len k0) in
  let ipad := map (fun b => Z_to_byte (Z.lxor (byte_to_Z b) 0x36)) k in
  let opad := map (fun b => Z_to_byte (Z.lxor (byte_to_Z b) 0x5c)) k in
  SHA256.hash (opad ++ SHA256.hash (ipad ++ msg)).

(** One PBKDF2 block: [U_1 xor ... xor U_c]. *)
Fixpoint pbkdf2_rounds (passwd : bytes) (c : nat) (u t : bytes) : bytes :=
  match c with
  | O => t
  | S k =>
      let u' := hmac passwd u in
      pbkdf2_rounds passwd k u' (xor_bytes t u')
  end.

Definition pbkdf2_block (passwd salt : bytes) (c : nat) (i : Z) : bytes :=
  let u1 := hmac passwd (salt ++ be_digits 4 i) in
  pbkdf2_rounds passwd (Nat.pred c) u1 u1.

(** [PBKDF2_SHA256(passwd, salt, c, buf, dkLen)] *)
Definition pbkdf2 (passwd salt : bytes) (c : nat) (dkLen : nat) : bytes :=
  let blocks := map (fun i => pbkdf2_block passwd salt c (Z.of_nat i))
                    (seq 1 ((dkLen + 31) / 32)%nat) in
  firstn dkLen (List.concat blocks).

Definition w32 (x : Z) : Z := Z.land x 0xffffffff.
Definition rotl (x n : Z) : Z :=
  Z.lor (w32 (Z.shiftl x n)) (Z.shiftr x (32 - n)).

(** The quarter round of Salsa20, in the order the reference code applies
    it: [b ^= R(a+d,7); c ^= R(b+a,9); d ^= R(c+b,13); a ^= R(d+c,18)]. *)
Definition quarter (a b c d : Z) : Z * Z * Z * Z :=
  let b := Z.lxor b (rotl (w32 (a + d)) 7) in
  let c := Z.lxor c (rotl (w32 (b + a)) 9) in
  let d := Z.lxor d (rotl (w32 (c + b)) 13) in
  let a := Z.lxor a (rotl (w32 (d + c)) 18) in
  (a, b, c, d).

Definition double_round (x : list Z) : list Z :=
  match x with
  | [y0; y1; y2; y3; y4; y5; y6; y7; y8; y9; y10; y11; y12; y13; y14; y15] =>
      let '(y0, y4, y8, y12) := quarter y0 y4 y8 y12 in
      let '(y5, y9, y13, y1) := quarter y5 y9 y13 y1 in
      let '(y10, y14, y2, y6) := quarter y10 y14 y2 y6 in
      let '(y15, y3, y7, y11) := quarter y15 y3 y7 y11 in
      let '(y0, y1, y2, y3) := quarter y0 y1 y2 y3 in
      let '(y5, y6, y7, y4) := quarter y5 y6 y7 y4 in
      let '(y10, y11, y8, y9) := quarter y10 y11 y8 y9 in
      let '(y15, y12, y13, y14) := quarter y15 y12 y13 y14 in
      [y0; y1; y2; y3; y4; y5; y6; y7; y8; y9; y10; y11; y12; y13; y14; y15]
  | _ => x
  end.

(** Salsa20/8 core on sixteen 32-bit words. *)
Definition salsa20_8 (b : list Z) : list Z :=
  let x := Nat.iter 4 double_round b in
  map (fun xy => w32 (fst xy + snd xy)) (combine b x).

Definition xor_words (a b : list Z) : list Z :=
  map (fun xy => Z.lxor (fst xy) (snd xy)) (combine a b).

(** scryptBlockMix over [2r] blocks of sixteen words: the running block
    [x] and the outputs of even and odd index, newest first. *)
Fixpoint blockmix_loop (bs : list (list Z)) (x : list Z) (even : bool)
    (ye yo : list (list Z)) : list (list Z) :=
  match bs with
  | [] => rev ye ++ rev yo
  | b :: rest =>
      let x' := salsa20_8 (xor_words x b) in
      if even then blockmix_loop rest x' false (x' :: ye) yo
      else blockmix_loop rest x' true ye (x' :: yo)
  end.

Definition blockmix (bs : list (list Z)) : list (list Z) :=
  blockmix_loop bs (last bs []) true [] [].

(** Integerify: the last block read as a little-endian integer; its two
    low words suffice for [N] up to [2^64]. *)
Definition integerify (bs : list (list Z)) : Z :=
  let l := last bs [] in
  nth 0 l 0 + 2 ^ 32 * nth 1 l 0.

Definition xor_blocks (a b : list (list Z)) : list (list Z) :=
  map (fun xy => xor_words (fst xy) (snd xy)) (combine a b).

Fixpoint romix_fill (n : nat) (x : list (list Z)) (v : list (list (list Z)))
    : list (list Z) * list (list (list Z)) :=
  match n with
  | O => (x, rev v)
  | S k => romix_fill k (blockmix x) (x :: v)
  end.

Fixpoint romix_mix (n : nat) (N : Z) (v : list (list (list Z)))
    (x : list (list Z)) : list (list Z) :=
  match n with
  | O => x
  | S k =>
      let j := integerify x mod N in
      romix_mix k N v (blockmix (xor_blocks x (nth (Z.to_nat j) v [])))
  end.

(** scryptROMix *)
Definition romix (N : Z) (b : list (list Z)) : list (list Z) :=
  let (x, v) := romix_fill (Z.to_nat N) b [] in
  romix_mix (Z.to_nat N) N v x.

Definition words_of_bytes (b : bytes) : list Z :=
  map int_from_bytes_le (chunks 4 b).

Definition bytes_of_words (ws : list Z) : bytes :=
  List.concat (map (le_digits 4) ws).

Definition smix (N : Z) (chunk : bytes) : bytes :=
  List.concat (map bytes_of_words
              (romix N (map words_of_bytes (chunks 64 chunk)))).

(** The scrypt function; [None] is the [-1] the library returns when it
    rejects the cost parameter ([N] must be a power of two above one), in
    which case the output buffer is not written. *)
Definition scrypt (passwd salt : bytes) (N r p : Z) (buflen : Z)
    : option bytes :=
  if (N <? 2) || negb (Z.land N (N - 1) =? 0) then None
  else
    let b := pbkdf2 passwd salt 1 (Z.to_nat (p * 128 * r)) in
    let b' := List.concat (map (smix N) (chunks (Z.to_nat (128 * r)) b)) in
    Some (pbkdf2 passwd b' 1 (Z.to_nat buflen)).

End Scrypt.

(** ** [enscrypt] *)

(** [_kdf = sodium.crypto_pwhash_scryptsalsa208sha256_ll]: the password
    and the salt are read over the lengths passed along with them. *)
Definition _kdf (passwd : bytes) (pwlen : Z) (salt : bytes) (saltlen : Z)
    (N r p : Z) (outlen : Z) : option bytes :=
  Scrypt.scrypt (firstn (Z.to_nat pwlen) passwd)
                (firstn (Z.to_nat saltlen) salt) N r p outlen.

(** What a run of [enscrypt] touches outside its arguments: how often it
    has read the process clock, and (as a record of what was done) the
    password and salt of every KDF call so far, oldest first. *)
Record world : Type := mkWorld
  { clock_reads : nat; kdf_calls : list (bytes * bytes) }.

Definition world0 : world := mkWorld 0 [].

(** A C function writing [d] at the start of the buffer [buf]. *)
Definition write_buf (buf d : bytes) : bytes :=
  d ++ skipn (List.length d) buf.

Section Enscrypt.

(** The process clock: [clock n] is what the [n]-th reading of
    [process_time()] in this run returns.  Times are counted in ticks of
    the clock; [seconds] is given in the same unit. *)
Variable clock : nat -> Z.

Definition process_time (w : world) : Z * world :=
  (clock (clock_reads w), mkWorld (S (clock_reads w)) (kdf_calls w)).

(** What the buffer [out] holds after
    [_kdf(passwd, pwlen, salt, saltlen, N, r, p, out, outlen)] with
    [r = 256], [p = 1] and [outlen = KEY_BYTES]: the return code is not
    looked at, so a rejected call leaves the buffer as it was. *)
Definition kdf_out (passwd : bytes) (pwlen : Z) (salt : bytes) (saltlen : Z)
    (N : Z) (out : bytes) : bytes :=
  let r := 256 in
  let p := 1 in
  let outlen := KEY_BYTES in
  match _kdf passwd pwlen salt saltlen N r p outlen with
  | Some d => write_buf out d
  | None => out
  end.

(** One such call in the world [w]: the password and salt handed over
    are noted. *)
Definition call_kdf (passwd : bytes) (pwlen : Z) (salt : bytes) (saltlen : Z)
    (N : Z) (out : bytes) (w : world) : bytes * world :=
  (kdf_out passwd pwlen salt saltlen N out,
   mkWorld (clock_reads w)
           (kdf_calls w ++ [(firstn (Z.to_nat pwlen) passwd,
                             firstn (Z.to_nat saltlen) salt)])).

(** [while i < iterations or process_time() < end: ...]; the clock is
    read only when the first test fails.  [None]: the loop is still
    running after [fuel] tests. *)
Fixpoint enscrypt_loop (fuel : nat) (passwd : bytes) (pwlen : Z)
    (N iterations end_ : Z) (i : Z) (out : bytes) (acc : Z) (w : world)
    : option (Z * Z * world) :=
  match fuel with
  | O => None
  | S f =>
      let (go, w1) :=
        if i <? iterations then (true, w)
        else let (t, w') := process_time w in (t <? end_, w') in
      if go then
        let (out', w2) := call_kdf passwd pwlen out KEY_BYTES N out w1 in
        enscrypt_loop f passwd pwlen N iterations end_ (i + 1) out'
                      (Z.lxor acc (int_from_bytes_le out')) w2
      else Some (i, acc, w1)
  end.

(** [enscrypt(passwd, salt, logN, iterations, seconds)] started in the
    world [w]; the result is [(iterations, time_consumed, derived_key)]. *)
Definition enscrypt (fuel : nat) (passwd salt : bytes)
    (logN iterations seconds : Z) (w : world)
    : option (result (Z * Z * bytes) * world) :=
  if logN <? 0 then Some (Raise ValueError, w)
  else
    let pwlen := len passwd in
    let saltlen := len salt in
    let N := Z.shiftl 1 logN mod 2 ^ 64 in
    let out := zero_bytes KEY_BYTES in
    let (out, w) := call_kdf passwd pwlen salt saltlen N out w in
    let acc := int_from_bytes_le out in
    let i := 1 in
    let (start, w) := process_time w in
    let end_ := start + seconds in
    match enscrypt_loop fuel passwd pwlen N iterations end_ i out acc w with
    | None => None
    | Some (i, acc, w) =>
        let (now, w) := process_time w in
        Some ((key <- int_to_bytes_le acc KEY_BYTES ;;
               Ok (i, now - start, key))%py, w)
    end.

End Enscrypt.

(** The digests of a run, as functions of its inputs: round [0] is the
    KDF over the passphrase and the salt; every further round keeps the
    passphrase as the password and takes the digest before it as salt. *)
Definition stretch_round (passwd : bytes) (N : Z) (d : bytes) : bytes :=
  kdf_out passwd (len passwd) d KEY_BYTES N d.

Definition round_digest (passwd salt : bytes) (N : Z) (k : nat) : bytes :=
  Nat.iter k (stretch_round passwd N)
           (kdf_out passwd (len passwd) salt (len salt) N
                    (zero_bytes KEY_BYTES)).

(** The KDF calls of [n >= 1] rounds: their passwords and salts. *)
Definition stretch_calls (passwd salt : bytes) (N : Z) (n : nat)
    : list (bytes * bytes) :=
  (passwd, salt) ::
  map (fun k => (passwd, round_digest passwd salt N k)) (seq 0 (Nat.pred n)).

(** The accumulator after [n] rounds, and the key derived from it. *)
Definition xor_digests (passwd salt : bytes) (N : Z) (n : nat) : Z :=
  fold_right Z.lxor 0
    (map (fun k => int_from_bytes_le (round_digest passwd salt N k))
         (seq 0 n)).

Definition stretch_key (passwd salt : bytes) (N : Z) (n : nat) : bytes :=
  le_digits 32 (xor_digests passwd salt N n).

(** The loop of [enscrypt] entered with [k + 1] rounds done, [r]
    readings of the clock taken, and the KDF calls of those rounds noted
    after the calls [b] made before the run. *)
Definition loop_at (clock : nat -> Z) (passwd salt : bytes)
    (N iterations end_ : Z) (fuel k r : nat) (b : list (bytes * bytes))
    : option (Z * Z * world) :=
  enscrypt_loop clock fuel passwd (len passwd) N iterations end_
    (Z.of_nat (S k)) (round_digest passwd salt N k)
    (xor_digests passwd salt N (S k))
    (mkWorld r (b ++ stretch_calls passwd salt N (S k))).

(** The same in the words of the specification, where every further
    round takes the digest before it as the password and as the salt. *)
Definition MemoryHardStretch_round (N : Z) (d : bytes) : bytes :=
  kdf_out d (len d) d (len d) N d.

Definition MemoryHardStretch_digest (passwd salt : bytes) (N : Z) (k : nat)
    : bytes :=
  Nat.iter k (MemoryHardStretch_round N)
           (kdf_out passwd (len passwd) salt (len salt) N
                    (zero_bytes KEY_BYTES)).

Definition MemoryHardStretch_calls (passwd salt : bytes) (N : Z) (n : nat)
    : list (bytes * bytes) :=
  (passwd, salt) ::
  map (fun k => (MemoryHardStretch_digest passwd salt N k,
                 MemoryHardStretch_digest passwd salt N k))
      (seq 0 (Nat.pred n)).

(** The cost parameter [c_uint64(1 << logN)]. *)
Definition cost (logN : Z) : Z := Z.shiftl 1 logN mod 2 ^ 64.

(** A clock that does not run backwards. *)
Definition monotone (clock : nat -> Z) : Prop :=
  forall i j : nat, (i <= j)%nat -> clock i <= clock j.

(** ** Random generators behind [KeyGen] *)

(** The seed handed to [KeyGen]: [None], an [int], a [str] or [bytes]. *)
Inductive py_seed : Type :=
| SeedNone
| SeedInt (n : Z)
| SeedStr (s : string)
| SeedBytes (b : bytes).

(** Truth value of a seed in [if seed:]. *)
Definition truthy (seed : py_seed) : bool :=
  match seed with
  | SeedNone => false
  | SeedInt n => negb (n =? 0)
  | SeedStr s => negb (String.eqb s EmptyString)
  | SeedBytes b => match b with [] => false | _ => true end
  end.

(** [random.Random]: the Mersenne Twister of the interpreter, taken as
    an interface: a state made from the seed, and [getrandbits]. *)
Class SeededRandom : Type :=
  { mt_state : Type;
    mt_seed : py_seed -> mt_state;
    mt_getrandbits : Z -> mt_state -> Z * mt_state }.

(** [random.SystemRandom]: the bytes the operating system will hand out
    to [os.urandom] and how many of them were taken. *)
Record system_random : Type := mkSystem
  { os_bytes : nat -> byte; os_taken : nat }.

Definition urandom (n : nat) (g : system_random) : bytes * system_random :=
  (map (os_bytes g) (seq (os_taken g) n), mkSystem (os_bytes g) (os_taken g + n)).

(** [SystemRandom.getrandbits(k)] for [k >= 0]. *)
Definition system_getrandbits (k : Z) (g : system_random)
    : Z * system_random :=
  let numbytes := (k + 7) / 8 in
  let (b, g') := urandom (Z.to_nat numbytes) g in
  (Z.shiftr (int_from_bytes_be b) (numbytes * 8 - k), g').

(** [self._rng]: one generator or the other. *)
Inductive rng {MT : SeededRandom} : Type :=
| Random (st : mt_state)
| SystemRandom (g : system_random).

Definition getrandbits {MT : SeededRandom} (k : Z) (g : rng) : Z * rng :=
  match g with
  | Random st => let (x, st') := mt_getrandbits k st in (x, Random st')
  | SystemRandom sg =>
      let (x, sg') := system_getrandbits k sg in (x, SystemRandom sg')
  end.

(** [int.bit_length] of a non-negative integer. *)
Definition bit_length (n : Z) : Z := if n =? 0 then 0 else Z.log2 n + 1.

(** [Random._randbelow(n)]: draw [n.bit_length()] bits until the value is
    below [n]; [None] when [fuel] draws were all rejected. *)
Fixpoint _randbelow {MT : SeededRandom} (fuel : nat) (n : Z) (g : rng)
    : option (Z * rng) :=
  match fuel with
  | O => None
  | S f =>
      let (r, g') := getrandbits (bit_length n) g in
      if n <=? r then _randbelow f n g' else Some (r, g')
  end.

(** [randrange(stop)] *)
Definition randrange {MT : SeededRandom} (fuel : nat) (stop : Z) (g : rng)
    : option (result Z * rng) :=
  if 0 <? stop then
    match _randbelow fuel stop g with
    | Some (r, g') => Some (Ok r, g')
    | None => None
    end
  else Some (Raise ValueError, g).

(** ** [str] of an integer and [str.join] *)

Definition digit_char (d : Z) : ascii := ascii_of_nat (Z.to_nat (48 + d)).

Fixpoint decimal (fuel : nat) (n : Z) (acc : string) : string :=
  match fuel with
  | O => acc
  | S f =>
      let acc' := String (digit_char (n mod 10)) acc in
      if n <? 10 then acc' else decimal f (n / 10) acc'
  end.

Definition str (n : Z) : string :=
  if n <? 0 then String "-"%char (decimal (S (Z.to_nat (Z.log2 (- n)))) (- n) EmptyString)
  else decimal (S (Z.to_nat (Z.log2 n))) n EmptyString.

Fixpoint join (sep : string) (parts : list string) : string :=
  match parts with
  | [] => EmptyString
  | [x] => x
  | x :: rest => (x ++ sep ++ join sep rest)%string
  end.

(** ** Names the module can refer to *)

(** The names bound at the top level of [crypto.py] by its imports,
    assignments, functions and classes. *)
Definition module_globals : list string :=
  [ "rng"; "na"; "sodium"; "ctypes"; "process_time";
    "Cipher"; "algorithms"; "modes"; "default_backend";
    "TAG_BYTES"; "KEY_BYTES"; "GCMIV_BYTES"; "SCRYPT_SALT_BYTES"; "NULLIV";
    "encrypt"; "decrypt"; "sha256sum"; "Nonce"; "enhash"; "_kdf";
    "enscrypt"; "random"; "os"; "KeyGen"; "sign"; "verify" ]%string.

(** Looking up a name that is neither local nor built in: a name the
    module never binds raises [NameError] where it is used. *)
Definition lookup_global (name : string) : result unit :=
  if existsb (String.eqb name) module_globals then Ok tt
  else Raise (NameError name).

(** The signature primitives of pysodium the code names. *)
Class SodiumSign : Type :=
  { crypto_sign_seed_keypair : bytes -> bytes * bytes;
    crypto_sign_detached : bytes -> bytes -> bytes }.

(** ** [class KeyGen] *)

Module KeyGen.

Section Methods.

Context {MT : SeededRandom} {NA : SodiumSign}.

(** [KeyGen.__init__(seed)]; [os] is the entropy the system generator
    would serve to this object. *)
Definition __init__ (seed : py_seed) (os : nat -> byte) : rng :=
  if truthy seed then Random (mt_seed seed)
  else SystemRandom (mkSystem os 0).

Definition randbytes (count : Z) (self : rng) : result bytes * rng :=
  let (x, self') := getrandbits (count * 8) self in
  (int_to_bytes_le x count, self').

(** The six draws of [rescue_code], in order. *)
Fixpoint rescue_groups (fuel : nat) (n : nat) (self : rng)
    : option (result (list string) * rng) :=
  match n with
  | O => Some (Ok [], self)
  | S k =>
      match randrange fuel 10000 self with
      | None => None
      | Some (Raise e, self') => Some (Raise e, self')
      | Some (Ok r, self') =>
          match rescue_groups fuel k self' with
          | None => None
          | Some (Raise e, self'') => Some (Raise e, self'')
          | Some (Ok rest, self'') => Some (Ok (str r :: rest), self'')
          end
      end
  end.

(** [rescue_code]; [fuel] bounds the draws one [randrange] may reject. *)
Definition rescue_code (fuel : nat) (self : rng)
    : option (result string * rng) :=
  match rescue_groups fuel 6 self with
  | None => None
  | Some (Raise e, self') => Some (Raise e, self')
  | Some (Ok groups, self') => Some (Ok (join "-" groups), self')
  end.

Definition identity_unlock_key (self : rng) : result bytes * rng :=
  randbytes KEY_BYTES self.

Definition identity_master_key (iuk : bytes) : result bytes :=
  (_ <- lookup_global "enhash" ;; enhash_default iuk)%py.

Definition identity_lock_key (iuk : bytes) : result bytes :=
  (_ <- lookup_global "crypto_sign_seed_keypair" ;;
   Ok (fst (crypto_sign_seed_keypair iuk)))%py.

Definition public_key (sk : bytes) : result bytes :=
  (_ <- lookup_global "crypto_sign_seed_keypair" ;;
   Ok (fst (crypto_sign_seed_keypair sk)))%py.

Definition local_key (mk : bytes) : result bytes :=
  (_ <- lookup_global "enhash" ;; enhash_default mk)%py.

Definition random_lock_key (self : rng) : result bytes * rng :=
  randbytes KEY_BYTES self.

Definition verify_unlock_key (ilk rlk : bytes) : result bytes :=
  (_ <- lookup_global "crypto_sign_seed_keypair" ;;
   Ok (fst (crypto_sign_seed_keypair rlk)))%py.

Definition server_unlock_key (rlk : bytes) : result bytes :=
  (_ <- lookup_global "crypto_sign_seed_keypair" ;;
   Ok (fst (crypto_sign_seed_keypair rlk)))%py.

(** The body is a docstring only: the call returns [None]. *)
Definition unlock_request_signing_key (suk iuk : bytes)
    : result (option bytes) :=
  Ok None.

End Methods.

End KeyGen.

(** ** [sign] and [verify] *)

Definition sign {NA : SodiumSign} (message sk pk : bytes) : result bytes :=
  (_ <- lookup_global "crypto_sign_detached" ;;
   Ok (crypto_sign_detached message (sk ++ pk)))%py.

(** [verify(sig, msg, pk)]: the callee is looked up first, then the
    arguments are evaluated; pysodium's [crypto_sign_verify_detached]
    takes three arguments, so the call with two would be a [TypeError]. *)
Definition verify (sig msg pk : bytes) : result unit :=
  (_ <- lookup_global "crypto_sign_verify_detached" ;;
   _ <- lookup_global "message" ;;
   Raise TypeError)%py.

(** ** Calls in a row on one [KeyGen] *)

Inductive keygen_call : Type :=
| Call_identity_unlock_key
| Call_identity_master_key (iuk : bytes)
| Call_identity_lock_key (iuk : bytes)
| Call_local_key (mk : bytes).

Definition do_call {MT : SeededRandom} {NA : SodiumSign}
    (c : keygen_call) (self : rng) : result bytes * rng :=
  match c with
  | Call_identity_unlock_key => KeyGen.identity_unlock_key self
  | Call_identity_master_key iuk => (KeyGen.identity_master_key iuk, self)
  | Call_identity_lock_key iuk => (KeyGen.identity_lock_key iuk, self)
  | Call_local_key mk => (KeyGen.local_key mk, self)
  end.

(** What the calls [cs], made in this order on the object, return. *)
Fixpoint run_calls {MT : SeededRandom} {NA : SodiumSign}
    (cs : list keygen_call) (self : rng) : list (result bytes) :=
  match cs with
  | [] => []
  | c :: rest =>
      let (x, self') := do_call c self in
      x :: run_calls rest self'
  end.

(** Number of decimal digits in a string. *)
Definition is_digit (c : ascii) : bool :=
  let n := nat_of_ascii c in ((48 <=? n)%nat && (n <=? 57)%nat)%bool.

Fixpoint count_digits (s : string) : nat :=
  match s with
  | EmptyString => O
  | String c r => ((if is_digit c then 1 else 0) + count_digits r)%nat
  end.

(** Twelve bytes the system may hand out, as a sample of its entropy. *)
Definition os_sample (n : nat) : byte :=
  nth n [x0e; x78; x17; x70; x15; xb8; x5c; x6c; x2b; x48; x4e; xe0] x00.

(** ** AES (FIPS 197) *)

Module AES.

(** Multiplication by [x] in GF(2^8) modulo [x^8 + x^4 + x^3 + x + 1]. *)
Definition xtime (a : Z) : Z :=
  let b := Z.shiftl a 1 in
  if 256 <=? b then Z.lxor b 0x11b else b.

(** Product in GF(2^8), by the bits of [b]. *)
Fixpoint gmul_bits (n : nat) (a b acc : Z) : Z :=
  match n with
  | O => acc
  | S k =>
      gmul_bits k (xtime a) (Z.shiftr b 1)
                (if Z.odd b then Z.lxor acc a else acc)
  end.

Definition gmul (a b : Z) : Z := gmul_bits 8 a b 0.

(** The inverse in GF(2^8) as the 254th power; 0 goes to 0. *)
Definition ginv (a : Z) : Z :=
  let a2 := gmul a a in
  let a4 := gmul a2 a2 in
  let a8 := gmul a4 a4 in
  let a16 := gmul a8 a8 in
  let a32 := gmul a16 a16 in
  let a64 := gmul a32 a32 in
  let a128 := gmul a64 a64 in
  gmul a128 (gmul a64 (gmul a32 (gmul a16 (gmul a8 (gmul a4 a2))))).

Definition rotl8 (x n : Z) : Z :=
  Z.land (Z.lor (Z.shiftl x n) (Z.shiftr x (8 - n))) 255.

(** The S-box: the inverse followed by the affine map. *)
Definition sbox_value (a : Z) : Z :=
  let b := ginv a in
  Z.lxor (Z.lxor (Z.lxor (Z.lxor (Z.lxor b (rotl8 b 1)) (rotl8 b 2))
                         (rotl8 b 3)) (rotl8 b 4)) 0x63.

Definition sbox_table : list Z :=
  Eval vm_compute in map (fun k => sbox_value (Z.of_nat k)) (seq 0 256).

Definition sbox (a : Z) : Z := nth (Z.to_nat a) sbox_table 0.

(** Key expansion: [nk] words of key give [4 * (nk + 7)] words. *)
Definition sub_word (w : list Z) : list Z := map sbox w.
Definition rot_word (w : list Z) : list Z :=
  match w with a :: r => r ++ [a] | [] => [] end.
Definition xor_word (a b : list Z) : list Z :=
  map (fun xy => Z.lxor (fst xy) (snd xy)) (combine a b).

(** Round constant [x^(i-1)]. *)
Definition rcon (i : nat) : Z := Nat.iter (Nat.pred i) xtime 1.

(** Words are kept newest first while the schedule is extended. *)
Fixpoint expand (n : nat) (nk i : nat) (ws : list (list Z)) : list (list Z) :=
  match n with
  | O => ws
  | S k =>
      let prev := nth 0 ws [] in
      let back := nth (Nat.pred nk) ws [] in
      let t :=
        if Nat.eqb (i mod nk) 0 then
          xor_word (sub_word (rot_word prev)) [rcon (i / nk); 0; 0; 0]
        else if Nat.ltb 6 nk && Nat.eqb (i mod nk) 4 then sub_word prev
        else prev in
      expand k nk (S i) (xor_word back t :: ws)
  end.

Definition key_schedule (key : list Z) : list (list Z) :=
  let nk := (List.length key / 4)%nat in
  let ws := rev (chunks 4 key) in
  rev (expand (4 * (nk + 7) - nk) nk nk ws).

(** The round keys, sixteen bytes each. *)
Definition round_keys (key : list Z) : list (list Z) :=
  map (@List.concat Z) (chunks 4 (key_schedule key)).

Definition add_round_key (st rk : list Z) : list Z :=
  map (fun i => Z.lxor (nth i st 0) (nth i rk 0)) (seq 0 16).

Definition sub_bytes (st : list Z) : list Z := map sbox st.

(** The state is stored by columns: byte [r + 4c] is row [r], column [c]. *)
Definition shift_rows (st : list Z) : list Z :=
  map (fun i => let r := (i mod 4)%nat in let c := (i / 4)%nat in
                nth (r + 4 * ((c + r) mod 4)) st 0) (seq 0 16).

Definition mix_columns (st : list Z) : list Z :=
  map (fun i =>
         let r := (i mod 4)%nat in let c := (i / 4)%nat in
         let s := fun k => nth (((r + k) mod 4) + 4 * c) st 0 in
         Z.lxor (Z.lxor (Z.lxor (gmul 2 (s 0%nat)) (gmul 3 (s 1%nat)))
                        (s 2%nat)) (s 3%nat))
      (seq 0 16).

Definition round (st rk : list Z) : list Z :=
  add_round_key (mix_columns (shift_rows (sub_bytes st))) rk.

Definition final_round (st rk : list Z) : list Z :=
  add_round_key (shift_rows (sub_bytes st)) rk.

(** The cipher on one block of sixteen bytes. *)
Definition cipher (rks : list (list Z)) (block : list Z) : list Z :=
  match rks with
  | [] => block
  | rk0 :: rest =>
      let st := add_round_key block rk0 in
      let st := fold_left round (removelast rest) st in
      final_round st (last rest [])
  end.

(** The sixteen bytes of the state after the cipher. *)
Definition encrypt_block (key block : bytes) : bytes :=
  let out := cipher (round_keys (map byte_to_Z key)) (map byte_to_Z block) in
  map (fun i => Z_to_byte (nth i out 0)) (seq 0 16).

End AES.

(** ** Galois/Counter Mode (NIST SP 800-38D) *)

Module GCM.

(** Blocks are 128-bit integers, first byte most significant. *)
Definition block_of_bytes (b : bytes) : Z := int_from_bytes_be b.
Definition bytes_of_block (z : Z) : bytes := be_digits 16 z.

(** Product in GF(2^128): bit 0 is the most significant one. *)
Fixpoint mul_bits (n : nat) (x v z : Z) : Z :=
  match n with
  | O => z
  | S k =>
      let z' := if Z.testbit x (Z.of_nat k) then Z.lxor z v else z in
      let v' := if Z.odd v
                then Z.lxor (Z.shiftr v 1) (Z.shiftl 0xe1 120)
                else Z.shiftr v 1 in
      mul_bits k x v' z'
  end.

Definition mul (x y : Z) : Z := mul_bits 128 x y 0.

(** [bytes] cut into blocks, the last one filled up with zeros. *)
Definition blocks (b : bytes) : list Z :=
  map (fun c => block_of_bytes (c ++ zero_bytes (16 - len c))) (chunks 16 b).

Definition ghash (h : Z) (xs : list Z) : Z :=
  fold_left (fun y x => mul (Z.lxor y x) h) xs 0.

Definition lengths_block (a c : bytes) : Z :=
  Z.shiftl (8 * len a) 64 + 8 * len c.

(** Increment of the low 32 bits. *)
Definition inc32 (cb : Z) : Z :=
  Z.shiftl (Z.shiftr cb 32) 32 + (cb + 1) mod 2 ^ 32.

Definition cipher_block (key : bytes) (z : Z) : Z :=
  block_of_bytes (AES.encrypt_block key (bytes_of_block z)).

(** The pre-counter block. *)
Definition j0 (key iv : bytes) : Z :=
  if len iv =? 12 then Z.shiftl (block_of_bytes iv) 32 + 1
  else ghash (cipher_block key 0) (blocks iv ++ [8 * len iv]).

(** [n] bytes of key stream from the counter block [cb] on. *)
Definition keystream (key : bytes) (cb : Z) (n : nat) : bytes :=
  firstn n
    (List.concat
       (map (fun i => AES.encrypt_block key
                        (bytes_of_block (Nat.iter i inc32 cb)))
            (seq 0 ((n + 15) / 16)%nat))).

Definition tag_of (key iv aad ct : bytes) : bytes :=
  let h := cipher_block key 0 in
  let s := ghash h (blocks aad ++ blocks ct ++ [lengths_block aad ct]) in
  bytes_of_block (Z.lxor s (cipher_block key (j0 key iv))).

Definition crypt (key iv data : bytes) : bytes :=
  Scrypt.xor_bytes data (keystream key (inc32 (j0 key iv)) (List.length data)).

End GCM.

(** ** [encrypt] and [decrypt] *)

(** What the calls into [cryptography] raise. *)
Module Aead.
Inductive exn : Type :=
| ValueError
| InternalError
| InvalidTag.
End Aead.

(** [algorithms.AES(key)] with [modes.GCM]: keys of 128, 192 or 256
    bits. *)
Definition aes_key_size_ok (key : bytes) : bool :=
  let bits := 8 * len key in
  (bits =? 128) || (bits =? 192) || (bits =? 256).

(** [modes.GCM(iv)]: an IV of 8 to 128 bytes, as [cryptography] 3.0 and
    later demand. *)
Definition gcm_iv_ok (iv : bytes) : bool :=
  (8 <=? len iv) && (len iv <=? 128).

(** The most one GCM context authenticates and encrypts, in bytes. *)
Definition _MAX_AAD_BYTES : Z := 2 ^ 64 / 8.
Definition _MAX_ENCRYPTED_BYTES : Z := (2 ^ 39 - 256) / 8.

Definition encrypt (key iv plaintext associated_data : bytes)
  : Aead.exn + (bytes * bytes) :=
  if negb (aes_key_size_ok key) then inl Aead.ValueError
  else if negb (gcm_iv_ok iv) then inl Aead.ValueError
  else if _MAX_AAD_BYTES <? len associated_data then inl Aead.ValueError
  else if _MAX_ENCRYPTED_BYTES <? len plaintext then inl Aead.ValueError
  else
    let ciphertext := GCM.crypt key iv plaintext in
    inr (ciphertext, GCM.tag_of key iv associated_data ciphertext).

(** [modes.GCM(iv, tag)] refuses a tag of less than 16 bytes, OpenSSL
    one of more; [finalize] compares the tag and raises [InvalidTag]. *)
Definition decrypt (key iv ciphertext associated_data tag : bytes)
  : Aead.exn + bytes :=
  if negb (aes_key_size_ok key) then inl Aead.ValueError
  else if negb (gcm_iv_ok iv) then inl Aead.ValueError
  else if len tag <? 16 then inl Aead.ValueError
  else if 16 <? len tag then inl Aead.InternalError
  else if _MAX_AAD_BYTES <? len associated_data then inl Aead.ValueError
  else if _MAX_ENCRYPTED_BYTES <? len ciphertext then inl Aead.ValueError
  else
    let plaintext := GCM.crypt key iv ciphertext in
    if list_eq_dec byte_eq_dec
         (GCM.tag_of key iv associated_data ciphertext) tag
    then inr plaintext
    else inl Aead.InvalidTag.

(** The parameters [encrypt] and [decrypt] both take. *)
Definition gcm_params (key iv data associated_data : bytes) : Prop :=
  (len key = 16 \/ len key = 24 \/ len key = 32) /\
  8 <= len iv <= 128 /\
  len associated_data <= _MAX_AAD_BYTES /\
  len data <= _MAX_ENCRYPTED_BYTES.

(** A small congruential generator and a hash-based key pair, as samples
    of the two interfaces where a concrete one is needed. *)
Definition sample_random : SeededRandom :=
  {| mt_state := Z;
     mt_seed := fun seed =>
       match seed with
       | SeedInt n => Z.abs n
       | SeedStr s => Z.of_nat (String.length s)
       | SeedBytes b => int_from_bytes_le b
       | SeedNone => 0
       end;
     mt_getrandbits := fun k s =>
       let s' := (1103515245 * s + 12345) mod 2 ^ 31 in
       (s' mod 2 ^ k, s') |}.

Definition sample_sodium : SodiumSign :=
  {| crypto_sign_seed_keypair := fun seed =>
       (SHA256.hash seed, seed ++ SHA256.hash seed);
     crypto_sign_detached := fun message sk =>
       SHA256.hash (sk ++ message) |}.

Definition hex_digit (z : Z) : ascii :=
  ascii_of_nat (Z.to_nat (if z <? 10 then 48 + z else 87 + z)).

Fixpoint hex (b : bytes) : string :=
  match b with
  | [] => EmptyString
  | x :: r =>
      String (hex_digit (byte_to_Z x / 16))
             (String (hex_digit (byte_to_Z x mod 16)) (hex r))
  end.

Definition bytes_of_string (s : string) : bytes := list_byte_of_string s.

Definition unhex_digit (c : ascii) : Z :=
  let n := Z.of_nat (nat_of_ascii c) in
  if n <? 58 then n - 48 else n - 87.

Fixpoint unhex (s : string) : bytes :=
  match s with
  | String hi (String lo r) =>
      Z_to_byte (16 * unhex_digit hi + unhex_digit lo) :: unhex r
  | _ => []
  end.

(** * Properties *)

(** ** Bytes and integers *)

Lemma byte_to_Z_range (b : byte) : 0 <= byte_to_Z b < 256.
Proof.
  unfold byte_to_Z. pose proof (Byte.to_N_bounded b). lia.
Qed.

Lemma byte_to_Z_of_Z (z : Z) : byte_to_Z (Z_to_byte z) = z mod 256.
Proof.
  unfold Z_to_byte.
  change 255 with (Z.ones 8). rewrite Z.land_ones by lia.
  change (2 ^ 8) with 256.
  pose proof (Z.mod_pos_bound z 256 ltac:(lia)) as Hm.
  destruct (Byte.of_N (Z.to_N (z mod 256))) as [b|] eqn:E.
  - apply Byte.to_of_N in E. unfold byte_to_Z. rewrite E. lia.
  - apply Byte.of_N_None_iff in E. lia.
Qed.

Lemma Z_to_byte_to_Z (b : byte) : Z_to_byte (byte_to_Z b) = b.
Proof.
  unfold Z_to_byte.
  change 255 with (Z.ones 8). rewrite Z.land_ones by lia.
  change (2 ^ 8) with 256.
  pose proof (byte_to_Z_range b).
  rewrite Z.mod_small by lia.
  unfold byte_to_Z. rewrite N2Z.id, Byte.of_to_N. reflexivity.
Qed.

Lemma le_digits_length (n : nat) (z : Z) : List.length (le_digits n z) = n.
Proof.
  revert z. induction n as [|n IH]; intros z; simpl; [reflexivity|].
  now rewrite IH.
Qed.

Lemma int_from_bytes_le_range (b : bytes) :
  0 <= int_from_bytes_le b < 2 ^ (8 * len b).
Proof.
  unfold len. induction b as [|x r IH].
  - simpl. lia.
  - cbn [int_from_bytes_le List.length].
    pose proof (byte_to_Z_range x).
    replace (8 * Z.of_nat (S (List.length r)))
      with (8 + 8 * Z.of_nat (List.length r)) by lia.
    rewrite Z.pow_add_r by lia. change (2 ^ 8) with 256. lia.
Qed.

Lemma int_from_le_digits (n : nat) (z : Z) :
  int_from_bytes_le (le_digits n z) = z mod 2 ^ (8 * Z.of_nat n).
Proof.
  revert z. induction n as [|n IH]; intros z.
  - simpl. now rewrite Z.mod_1_r.
  - cbn [le_digits int_from_bytes_le].
    rewrite byte_to_Z_of_Z, IH, Z.shiftr_div_pow2 by lia.
    change (2 ^ 8) with 256.
    replace (8 * Z.of_nat (S n)) with (8 + 8 * Z.of_nat n) by lia.
    rewrite Z.pow_add_r by lia. change (2 ^ 8) with 256.
    rewrite Z.rem_mul_r by lia. reflexivity.
Qed.

(** Encoding then decoding gives the integer back when it fits. *)
Lemma int_to_bytes_le_ok (z length : Z) :
  0 <= z < 2 ^ (8 * length) ->
  int_to_bytes_le z length = Ok (le_digits (Z.to_nat length) z).
Proof.
  intros [H0 H1]. unfold int_to_bytes_le.
  assert (0 <= length).
  { destruct (Z.leb_spec 0 length); [assumption|].
    rewrite Z.pow_neg_r in H1 by lia. lia. }
  destruct (Z.ltb_spec length 0); [lia|].
  destruct (Z.ltb_spec z 0); [lia|].
  destruct (Z.leb_spec (2 ^ (8 * length)) z); [lia|].
  reflexivity.
Qed.

Lemma int_to_bytes_le_inv (z length : Z) (enc : bytes) :
  int_to_bytes_le z length = Ok enc ->
  0 <= z < 2 ^ (8 * length) /\ len enc = length /\
  int_from_bytes_le enc = z.
Proof.
  unfold int_to_bytes_le.
  destruct (Z.ltb_spec length 0); [discriminate|].
  destruct (Z.ltb_spec z 0); [discriminate|].
  destruct (Z.leb_spec (2 ^ (8 * length)) z); [discriminate|].
  intros E. injection E as <-.
  unfold len. rewrite le_digits_length, int_from_le_digits, Z2Nat.id by lia.
  repeat split; try lia. apply Z.mod_small. lia.
Qed.

Lemma lxor_range (n a b : Z) :
  0 <= n -> 0 <= a < 2 ^ n -> 0 <= b < 2 ^ n -> 0 <= Z.lxor a b < 2 ^ n.
Proof.
  intros Hn Ha Hb.
  assert (H0 : 0 <= Z.lxor a b) by (apply Z.lxor_nonneg; lia).
  split; [assumption|].
  destruct (Z.eq_dec (Z.lxor a b) 0) as [->|Hne].
  { apply Z.pow_pos_nonneg; lia. }
  assert (0 < n).
  { destruct (Z.eq_dec n 0) as [->|]; [|lia].
    change (2 ^ 0) with 1 in *.
    assert (a = 0) as -> by lia. assert (b = 0) as -> by lia.
    now elim Hne. }
  apply Z.log2_lt_pow2; [lia|].
  eapply Z.le_lt_trans; [apply Z.log2_lxor; lia|].
  apply Z.max_lub_lt.
  - destruct (Z.eq_dec a 0) as [->|]; [simpl; lia|].
    apply Z.log2_lt_pow2; lia.
  - destruct (Z.eq_dec b 0) as [->|]; [simpl; lia|].
    apply Z.log2_lt_pow2; lia.
Qed.

(** ** SHA-256 *)

Lemma sha256_length (m : bytes) : List.length (SHA256.hash m) = 32%nat.
Proof.
  unfold SHA256.hash, SHA256.digest, be_digits.
  rewrite !length_app, !length_rev, !le_digits_length. reflexivity.
Qed.

Lemma crypto_hash_sha256_length (b : bytes) (n : Z) :
  List.length (crypto_hash_sha256 b n) = 32%nat.
Proof. apply sha256_length. Qed.

Lemma crypto_hash_sha256_whole (b : bytes) :
  crypto_hash_sha256 b (len b) = SHA256.hash b.
Proof.
  unfold crypto_hash_sha256, len. now rewrite Nat2Z.id, firstn_all.
Qed.

Example sha256_abc : hex (SHA256.hash (bytes_of_string "abc")) =
  "ba7816bf8f01cfea414140de5dae2223b00361a396177a9cb410ff61f20015ad"%string.
Proof. vm_compute. reflexivity. Qed.

Example sha256_two_blocks :
  hex (SHA256.hash (repeat "a"%byte 64)) =
  "ffe054fe7ae0cb6dc65c3af9b61d5209f439851db43d0ba5997337df154668eb"%string.
Proof. vm_compute. reflexivity. Qed.

(** ** [enhash] is the hash chain *)

Lemma fold_lxor_snoc (l : list Z) (v : Z) :
  fold_right Z.lxor 0 (l ++ [v]) = Z.lxor (fold_right Z.lxor 0 l) v.
Proof.
  induction l as [|a l IH]; simpl.
  - now rewrite Z.lxor_0_r.
  - now rewrite IH, Z.lxor_assoc.
Qed.

Lemma xor_rounds_S (x : bytes) (n : nat) :
  xor_rounds x (S n) =
  Z.lxor (xor_rounds x n) (int_from_bytes_le (round_output x n)).
Proof.
  unfold xor_rounds. rewrite seq_S, map_app. cbn [map Nat.add].
  apply fold_lxor_snoc.
Qed.

Lemma round_output_length (x : bytes) (k : nat) :
  List.length (round_output x k) = 32%nat.
Proof. unfold round_output. rewrite Nat.iter_succ. apply sha256_length. Qed.

Lemma xor_rounds_range (x : bytes) (n : nat) :
  0 <= xor_rounds x n < 2 ^ 256.
Proof.
  induction n as [|n IH].
  - unfold xor_rounds. cbn [seq map fold_right]. lia.
  - rewrite xor_rounds_S. apply lxor_range; [lia|assumption|].
    pose proof (int_from_bytes_le_range (round_output x n)) as H.
    unfold len in H. rewrite round_output_length in H. exact H.
Qed.

(** Hashing a 32-byte buffer over [KEY_BYTES] bytes hashes all of it. *)
Lemma rehash_round (x : bytes) (k : nat) :
  crypto_hash_sha256 (round_output x k) KEY_BYTES = round_output x (S k).
Proof.
  unfold crypto_hash_sha256, KEY_BYTES.
  rewrite firstn_all2 by (rewrite round_output_length; apply Nat.le_refl).
  unfold round_output. now rewrite (Nat.iter_succ (S k)).
Qed.

Lemma for_range_from_S {S : Type} (n : nat) (i : Z) (body : Z -> S -> S)
    (s : S) :
  for_range_from (Datatypes.S n) i body s =
  for_range_from n (i + 1) body (body i s).
Proof. reflexivity. Qed.

Lemma enhash_step_eq (i : Z) (u : bytes) (acc : Z) :
  enhash_step i (u, acc) =
  (crypto_hash_sha256 u KEY_BYTES,
   Z.lxor acc (int_from_bytes_le (crypto_hash_sha256 u KEY_BYTES))).
Proof. reflexivity. Qed.

(** The loop of [enhash] after [k+1] rounds, run for [n] more turns. *)
Lemma enhash_loop (x : bytes) (n k : nat) (i : Z) :
  for_range_from n i enhash_step (round_output x k, xor_rounds x (S k)) =
  (round_output x (k + n), xor_rounds x (S (k + n))).
Proof.
  revert k i. induction n as [|n IH]; intros k i.
  - rewrite Nat.add_0_r. reflexivity.
  - rewrite for_range_from_S, enhash_step_eq, rehash_round, <- xor_rounds_S.
    rewrite IH. now rewrite Nat.add_succ_r.
Qed.

Lemma enhash_rounds (data : bytes) (iterations : Z) :
  len data = 32 ->
  enhash data iterations =
  Ok (HashChain data (S (Z.to_nat (iterations - 1)))).
Proof.
  intros Hlen. unfold enhash. rewrite Hlen.
  change (negb (32 =? KEY_BYTES)) with false. cbv iota.
  assert (E : crypto_hash_sha256 data KEY_BYTES = round_output data 0).
  { unfold KEY_BYTES. rewrite <- Hlen, crypto_hash_sha256_whole.
    unfold round_output. now rewrite Nat.iter_succ. }
  rewrite E. unfold for_range.
  assert (X : int_from_bytes_le (round_output data 0) = xor_rounds data 1).
  { rewrite xor_rounds_S. unfold xor_rounds at 1. cbn [seq map fold_right].
    now rewrite Z.lxor_0_l. }
  rewrite X, enhash_loop. cbn [Nat.add].
  rewrite int_to_bytes_le_ok by apply xor_rounds_range.
  reflexivity.
Qed.

(** ** [Nonce.__next__] *)

Lemma slice_to_nonneg {A} (l : list A) (n : Z) :
  0 <= n -> slice_to l n = firstn (Z.to_nat n) l.
Proof.
  intros H. unfold slice_to. destruct (Z.ltb_spec n 0); [lia|reflexivity].
Qed.

Lemma next_state (s : Nonce.t) :
  snd (Nonce.__next__ s) =
  Nonce.mk (Nonce._bytes s) (Nonce._count s + 1) (Nonce._prefix s).
Proof. reflexivity. Qed.

Lemma next_value (s : Nonce.t) :
  0 <= Nonce._count s < 2 ^ (8 * Nonce._bytes s) ->
  fst (Nonce.__next__ s) =
  Ok (firstn (Z.to_nat (Nonce._bytes s))
        (SHA256.hash (Nonce._prefix s ++
           le_digits (Z.to_nat (Nonce._bytes s)) (Nonce._count s)))).
Proof.
  intros H. unfold Nonce.__next__. cbn [fst Nonce._bytes Nonce._prefix].
  rewrite int_to_bytes_le_ok by assumption. cbn [bind].
  unfold sha256sum. rewrite crypto_hash_sha256_whole.
  rewrite slice_to_nonneg; [reflexivity|].
  destruct (Z.leb_spec 0 (Nonce._bytes s)); [assumption|].
  rewrite Z.pow_neg_r in H by lia. lia.
Qed.

Lemma next_ok_iff (s : Nonce.t) :
  is_ok (fst (Nonce.__next__ s)) = true <->
  0 <= Nonce._count s < 2 ^ (8 * Nonce._bytes s).
Proof.
  split.
  - unfold Nonce.__next__. cbn [fst Nonce._bytes].
    destruct (int_to_bytes_le (Nonce._count s) (Nonce._bytes s)) as [enc|e] eqn:E;
      [|discriminate].
    intros _. now apply int_to_bytes_le_inv in E.
  - intros H. now rewrite next_value.
Qed.

Lemma byte_to_Z_inj (a b : byte) : byte_to_Z a = byte_to_Z b -> a = b.
Proof.
  intros H. rewrite <- (Z_to_byte_to_Z a), <- (Z_to_byte_to_Z b).
  now rewrite H.
Qed.

(** Two byte strings of one length that decode to one integer are the
    same string: the little-endian encoding on [b] bytes is unique. *)
Lemma int_from_bytes_le_inj (u v : bytes) :
  List.length u = List.length v ->
  int_from_bytes_le u = int_from_bytes_le v -> u = v.
Proof.
  revert v. induction u as [|x u IH]; intros [|y v] Hl He;
    try discriminate; [reflexivity|].
  cbn [int_from_bytes_le] in He. cbn [List.length] in Hl.
  pose proof (byte_to_Z_range x). pose proof (byte_to_Z_range y).
  assert (byte_to_Z x = byte_to_Z y) by lia.
  f_equal; [now apply byte_to_Z_inj|].
  apply IH; lia.
Qed.

Lemma next_raises (s : Nonce.t) :
  ~ (0 <= Nonce._count s < 2 ^ (8 * Nonce._bytes s)) ->
  fst (Nonce.__next__ s) =
  Raise (if Nonce._bytes s <? 0 then ValueError else OverflowError).
Proof.
  intros H. unfold Nonce.__next__. cbn [fst Nonce._bytes].
  unfold int_to_bytes_le.
  destruct (Z.ltb_spec (Nonce._bytes s) 0); [reflexivity|].
  destruct (Z.ltb_spec (Nonce._count s) 0); [reflexivity|].
  destruct (Z.leb_spec (2 ^ (8 * Nonce._bytes s)) (Nonce._count s));
    [reflexivity|lia].
Qed.

(** [n] draws in a row leave the counter [n] higher, and the [k]-th of
    them is the draw from counter [c + k]. *)
Lemma draws_spec (n : nat) (s : Nonce.t) :
  Nonce.draws n s =
  (map (fun k => fst (Nonce.__next__
                        (Nonce.mk (Nonce._bytes s)
                                  (Nonce._count s + Z.of_nat k)
                                  (Nonce._prefix s))))
       (seq 0 n),
   Nonce.mk (Nonce._bytes s) (Nonce._count s + Z.of_nat n) (Nonce._prefix s)).
Proof.
  revert s. induction n as [|n IH]; intros [b c p].
  - cbn [Nonce.draws seq map Nonce._bytes Nonce._count Nonce._prefix].
    now rewrite Z.add_0_r.
  - cbn [Nonce.draws].
    rewrite (surjective_pairing (Nonce.__next__ (Nonce.mk b c p))).
    rewrite next_state, IH.
    cbn [Nonce._bytes Nonce._count Nonce._prefix seq map].
    rewrite Z.add_0_r. f_equal.
    + f_equal. rewrite <- seq_shift, map_map.
      apply map_ext. intros k. do 3 f_equal. lia.
    + f_equal. lia.
Qed.

(** ** scrypt and the KDF buffer *)

Lemma hmac_length (key msg : bytes) : List.length (Scrypt.hmac key msg) = 32%nat.
Proof. unfold Scrypt.hmac. apply sha256_length. Qed.

Lemma pbkdf2_block_once (passwd salt : bytes) (i : Z) :
  Scrypt.pbkdf2_block passwd salt 1 i =
  Scrypt.hmac passwd (salt ++ be_digits 4 i).
Proof. reflexivity. Qed.

Lemma concat_blocks_length {A} (f : nat -> list A) (m : nat) (l : list nat) :
  (forall i, List.length (f i) = m) ->
  List.length (List.concat (map f l)) = (m * List.length l)%nat.
Proof.
  intros Hf. induction l as [|i l IH]; cbn [map List.concat List.length].
  - lia.
  - rewrite length_app, Hf, IH. lia.
Qed.

Lemma pbkdf2_length (passwd salt : bytes) (dkLen : nat) :
  List.length (Scrypt.pbkdf2 passwd salt 1 dkLen) = dkLen.
Proof.
  unfold Scrypt.pbkdf2. cbv zeta.
  rewrite length_firstn.
  unfold bytes. rewrite (concat_blocks_length _ 32%nat).
  - rewrite length_seq.
    pose proof (Nat.div_mod_eq (dkLen + 31) 32).
    pose proof (Nat.mod_upper_bound (dkLen + 31) 32). lia.
  - intros i. rewrite pbkdf2_block_once. apply hmac_length.
Qed.

Lemma scrypt_length (passwd salt : bytes) (N r p buflen : Z) (d : bytes) :
  Scrypt.scrypt passwd salt N r p buflen = Some d ->
  List.length d = Z.to_nat buflen.
Proof.
  unfold Scrypt.scrypt.
  destruct ((N <? 2) || negb (Z.land N (N - 1) =? 0)); [discriminate|].
  intros E. injection E as <-. apply pbkdf2_length.
Qed.

Lemma kdf_out_length (passwd : bytes) (pwlen : Z) (salt : bytes) (saltlen N : Z)
    (out : bytes) :
  List.length out = 32%nat ->
  List.length (kdf_out passwd pwlen salt saltlen N out) = 32%nat.
Proof.
  intros Hout. unfold kdf_out, _kdf.
  destruct (Scrypt.scrypt _ _ N 256 1 KEY_BYTES) as [d|] eqn:E; [|assumption].
  apply scrypt_length in E. unfold write_buf.
  rewrite length_app, length_skipn, E, Hout. reflexivity.
Qed.

Lemma round_digest_S (passwd salt : bytes) (N : Z) (k : nat) :
  round_digest passwd salt N (S k) =
  kdf_out passwd (len passwd) (round_digest passwd salt N k) KEY_BYTES N
          (round_digest passwd salt N k).
Proof. unfold round_digest. now rewrite Nat.iter_succ. Qed.

Lemma zero_bytes_length (n : Z) : List.length (zero_bytes n) = Z.to_nat n.
Proof. apply repeat_length. Qed.

Lemma round_digest_length (passwd salt : bytes) (N : Z) (k : nat) :
  List.length (round_digest passwd salt N k) = 32%nat.
Proof.
  induction k as [|k IH].
  - unfold round_digest. cbn [Nat.iter nat_rect].
    apply kdf_out_length, zero_bytes_length.
  - rewrite round_digest_S. now apply kdf_out_length.
Qed.

Lemma xor_digests_S (passwd salt : bytes) (N : Z) (n : nat) :
  xor_digests passwd salt N (S n) =
  Z.lxor (xor_digests passwd salt N n)
         (int_from_bytes_le (round_digest passwd salt N n)).
Proof.
  unfold xor_digests. rewrite seq_S, map_app. cbn [map Nat.add].
  apply fold_lxor_snoc.
Qed.

Lemma xor_digests_range (passwd salt : bytes) (N : Z) (n : nat) :
  0 <= xor_digests passwd salt N n < 2 ^ 256.
Proof.
  induction n as [|n IH].
  - unfold xor_digests. cbn [seq map fold_right]. lia.
  - rewrite xor_digests_S. apply lxor_range; [lia|assumption|].
    pose proof (int_from_bytes_le_range (round_digest passwd salt N n)) as H.
    unfold len in H. rewrite round_digest_length in H. exact H.
Qed.

Lemma stretch_calls_S (passwd salt : bytes) (N : Z) (k : nat) :
  stretch_calls passwd salt N (S (S k)) =
  stretch_calls passwd salt N (S k) ++ [(passwd, round_digest passwd salt N k)].
Proof.
  unfold stretch_calls. cbn [Nat.pred].
  rewrite seq_S, map_app. cbn [map Nat.add app]. reflexivity.
Qed.

Lemma stretch_calls_length (passwd salt : bytes) (N : Z) (n : nat) :
  List.length (stretch_calls passwd salt N (S n)) = S n.
Proof.
  unfold stretch_calls. cbn [List.length Nat.pred].
  now rewrite length_map, length_seq.
Qed.

Lemma firstn_len {A} (l : list A) : firstn (Z.to_nat (len l)) l = l.
Proof. unfold len. now rewrite Nat2Z.id, firstn_all. Qed.

Section Loop.

Variable clock : nat -> Z.
Variables (passwd salt : bytes) (N iterations end_ : Z).

Local Abbreviation rd := (round_digest passwd salt N).
Local Abbreviation xd := (xor_digests passwd salt N).
Local Abbreviation calls := (stretch_calls passwd salt N).
Local Abbreviation loop := (loop_at clock passwd salt N iterations end_).

Lemma loop_round (f k r : nat) (b : list (bytes * bytes)) :
  (let (out', w2) :=
     call_kdf passwd (len passwd) (rd k) KEY_BYTES N (rd k)
       (mkWorld r (b ++ calls (S k))) in
   enscrypt_loop clock f passwd (len passwd) N iterations end_
     (Z.of_nat (S k) + 1) out'
     (Z.lxor (xd (S k)) (int_from_bytes_le out')) w2) =
  loop f (S k) r b.
Proof.
  unfold loop_at, call_kdf. cbn [clock_reads kdf_calls].
  rewrite (round_digest_S passwd salt N k), (xor_digests_S passwd salt N (S k)).
  rewrite stretch_calls_S, app_assoc.
  rewrite round_digest_S.
  rewrite firstn_len.
  rewrite (firstn_all2 (n := Z.to_nat KEY_BYTES))
    by (rewrite round_digest_length; apply Nat.le_refl).
  replace (Z.of_nat (S k) + 1) with (Z.of_nat (S (S k))) by lia.
  reflexivity.
Qed.

Lemma enscrypt_loop_S (f : nat) (pw : bytes) (pwlen i : Z) (out : bytes)
    (acc : Z) (w : world) :
  enscrypt_loop clock (S f) pw pwlen N iterations end_ i out acc w =
  (let (go, w1) :=
     if i <? iterations then (true, w)
     else let (t, w') := process_time clock w in (t <? end_, w') in
   if go then
     let (out', w2) := call_kdf pw pwlen out KEY_BYTES N out w1 in
     enscrypt_loop clock f pw pwlen N iterations end_ (i + 1) out'
                   (Z.lxor acc (int_from_bytes_le out')) w2
   else Some (i, acc, w1)).
Proof. reflexivity. Qed.

Lemma loop_counted_step (f k r : nat) (b : list (bytes * bytes)) :
  Z.of_nat (S k) < iterations ->
  loop (S f) k r b = loop f (S k) r b.
Proof.
  intros H. unfold loop_at at 1. rewrite enscrypt_loop_S.
  rewrite (proj2 (Z.ltb_lt _ _) H). apply loop_round.
Qed.

Lemma loop_timed_step (f k r : nat) (b : list (bytes * bytes)) :
  iterations <= Z.of_nat (S k) -> clock r < end_ ->
  loop (S f) k r b = loop f (S k) (S r) b.
Proof.
  intros H Ht. unfold loop_at at 1. rewrite enscrypt_loop_S.
  rewrite (proj2 (Z.ltb_ge _ _) H).
  unfold process_time. cbn [clock_reads kdf_calls].
  rewrite (proj2 (Z.ltb_lt _ _) Ht). apply loop_round.
Qed.

Lemma loop_exit (f k r : nat) (b : list (bytes * bytes)) :
  iterations <= Z.of_nat (S k) -> end_ <= clock r ->
  loop (S f) k r b =
  Some (Z.of_nat (S k), xd (S k), mkWorld (S r) (b ++ calls (S k))).
Proof.
  intros H Ht. unfold loop_at. rewrite enscrypt_loop_S.
  rewrite (proj2 (Z.ltb_ge _ _) H).
  unfold process_time. cbn [clock_reads kdf_calls].
  rewrite (proj2 (Z.ltb_ge _ _) Ht). reflexivity.
Qed.

(** Rounds owed to the iteration count: the clock is not read. *)
Lemma loop_counted (c f k r : nat) (b : list (bytes * bytes)) :
  Z.of_nat c <= Z.max 0 (iterations - Z.of_nat (S k)) ->
  loop (c + f) k r b = loop f (k + c) r b.
Proof.
  revert k. induction c as [|c IH]; intros k H.
  - now rewrite Nat.add_0_r.
  - cbn [Nat.add]. rewrite loop_counted_step by lia.
    rewrite IH by lia. now rewrite Nat.add_succ_r.
Qed.

(** Rounds owed to the clock: one reading each. *)
Lemma loop_timed (m f k r : nat) (b : list (bytes * bytes)) :
  iterations <= Z.of_nat (S k) ->
  (forall j, (j < m)%nat -> clock (r + j) < end_) ->
  loop (m + f) k r b = loop f (k + m) (r + m) b.
Proof.
  revert k r. induction m as [|m IH]; intros k r H Hc.
  - now rewrite !Nat.add_0_r.
  - cbn [Nat.add]. rewrite loop_timed_step; [|assumption|].
    + rewrite IH.
      * now rewrite !Nat.add_succ_r.
      * lia.
      * intros j Hj. replace (S r + j)%nat with (r + S j)%nat by lia.
        apply Hc. lia.
    + specialize (Hc 0%nat). rewrite Nat.add_0_r in Hc. apply Hc. lia.
Qed.

(** The whole loop: [c] counted rounds, [m] rounds while the clock is
    short of [end_], and the reading that ends it. *)
Lemma loop_run (c m f r : nat) (b : list (bytes * bytes)) :
  c = Z.to_nat (iterations - 1) ->
  (forall j, (j < m)%nat -> clock (r + j) < end_) ->
  end_ <= clock (r + m) ->
  loop (c + (m + S f)) 0 r b =
  Some (Z.of_nat (S (c + m)), xd (S (c + m)),
        mkWorld (S (r + m)) (b ++ calls (S (c + m)))).
Proof.
  intros Hc Hlt Hge.
  rewrite loop_counted by lia. rewrite loop_timed; [|lia|assumption].
  rewrite loop_exit; [reflexivity|lia|assumption].
Qed.

End Loop.

Lemma enscrypt_unfold (clock : nat -> Z) (fuel : nat) (passwd salt : bytes)
    (logN iterations seconds : Z) (w : world) :
  0 <= logN ->
  enscrypt clock fuel passwd salt logN iterations seconds w =
  match loop_at clock passwd salt (cost logN) iterations
          (clock (clock_reads w) + seconds) fuel 0 (S (clock_reads w))
          (kdf_calls w) with
  | None => None
  | Some (i, acc, w1) =>
      Some ((key <- int_to_bytes_le acc KEY_BYTES ;;
             Ok (i, clock (clock_reads w1) - clock (clock_reads w), key))%py,
            mkWorld (S (clock_reads w1)) (kdf_calls w1))
  end.
Proof.
  intros H. unfold enscrypt.
  rewrite (proj2 (Z.ltb_ge _ _) H). cbv zeta.
  unfold call_kdf at 1. unfold process_time at 1.
  cbn [clock_reads kdf_calls].
  unfold loop_at.
  rewrite !firstn_len.
  assert (E0 : round_digest passwd salt (cost logN) 0 =
               kdf_out passwd (len passwd) salt (len salt) (cost logN)
                       (zero_bytes KEY_BYTES)) by reflexivity.
  assert (E1 : xor_digests passwd salt (cost logN) 1 =
               int_from_bytes_le (round_digest passwd salt (cost logN) 0)).
  { rewrite xor_digests_S. unfold xor_digests at 1.
    cbn [seq map fold_right]. apply Z.lxor_0_l. }
  rewrite E1, E0.
  unfold stretch_calls. cbn [Nat.pred seq map].
  fold (cost logN). change (Z.of_nat 1) with 1.
  destruct (enscrypt_loop _ _ _ _ _ _ _ _ _ _ _) as [[[i acc] w1]|];
    reflexivity.
Qed.

(** A run of [enscrypt] from the world [w]: with [c = iterations - 1]
    counted rounds after the first and [m] more while the clock is short
    of [start + seconds], the call returns after [1 + c + m] rounds. *)
Lemma enscrypt_run (clock : nat -> Z) (fuel : nat) (passwd salt : bytes)
    (logN iterations seconds : Z) (w : world) (m : nat) :
  0 <= logN ->
  (forall j, (j < m)%nat ->
     clock (S (clock_reads w) + j)%nat < clock (clock_reads w) + seconds) ->
  clock (clock_reads w) + seconds <= clock (S (clock_reads w) + m)%nat ->
  (Z.to_nat (iterations - 1) + m < fuel)%nat ->
  enscrypt clock fuel passwd salt logN iterations seconds w =
  Some (Ok (Z.of_nat (S (Z.to_nat (iterations - 1) + m)),
            clock (S (S (clock_reads w) + m)) - clock (clock_reads w),
            stretch_key passwd salt (cost logN)
                        (S (Z.to_nat (iterations - 1) + m))),
        mkWorld (S (S (S (clock_reads w) + m)))
                (kdf_calls w ++
                 stretch_calls passwd salt (cost logN)
                               (S (Z.to_nat (iterations - 1) + m)))).
Proof.
  intros HlogN Hlt Hge Hfuel.
  rewrite enscrypt_unfold by assumption.
  replace fuel with (Z.to_nat (iterations - 1) +
                     (m + S (fuel - Z.to_nat (iterations - 1) - m - 1)))%nat
    by lia.
  rewrite (loop_run clock passwd salt (cost logN) iterations _ _ m)
    by (reflexivity || assumption).
  cbn [clock_reads kdf_calls].
  change KEY_BYTES with 32.
  rewrite int_to_bytes_le_ok by apply xor_digests_range.
  reflexivity.
Qed.

(** With [seconds = 0] and a clock that does not run backwards the loop
    is bounded by the iteration count alone. *)
Lemma enscrypt_counted (clock : nat -> Z) (fuel : nat) (passwd salt : bytes)
    (logN iterations : Z) (w : world) :
  0 <= logN -> monotone clock ->
  (Z.to_nat (iterations - 1) < fuel)%nat ->
  enscrypt clock fuel passwd salt logN iterations 0 w =
  Some (Ok (Z.max 1 iterations,
            clock (S (S (clock_reads w))) - clock (clock_reads w),
            stretch_key passwd salt (cost logN) (Z.to_nat (Z.max 1 iterations))),
        mkWorld (S (S (S (clock_reads w))))
                (kdf_calls w ++
                 stretch_calls passwd salt (cost logN)
                               (Z.to_nat (Z.max 1 iterations)))).
Proof.
  intros HlogN Hmono Hfuel.
  rewrite (enscrypt_run clock fuel passwd salt logN iterations 0 w 0).
  - rewrite !Nat.add_0_r.
    replace (S (Z.to_nat (iterations - 1)))
      with (Z.to_nat (Z.max 1 iterations)) by lia.
    rewrite Z2Nat.id by lia. reflexivity.
  - assumption.
  - intros j Hj. lia.
  - rewrite Z.add_0_r. apply Hmono. lia.
  - lia.
Qed.

(** ** Claims on [enhash] and [Nonce] *)

(** C3.  For every 32-byte input, [enhash] returns the hash chain of the
    specification: a first SHA-256 hash of the input, then
    [iterations - 1] further rounds that re-hash the previous digest, all
    round outputs XORed together as little-endian integers and the result
    laid out on 32 little-endian bytes; the default is 16 rounds in all.
    On the all-zero input the 16-round value is the reference vector
    [fc51e67c...7ee5], which is also what the chain written after the
    specification evaluates to. *)
Theorem enhash_hash_chain :
  (forall (data : bytes) (iterations : Z),
      len data = 32 ->
      enhash data iterations =
        Ok (HashChain data (S (Z.to_nat (iterations - 1)))) /\
      enhash_default data = Ok (HashChain data 16) /\
      len (HashChain data (S (Z.to_nat (iterations - 1)))) = 32) /\
  enhash_default (zero_bytes 32) =
    Ok (unhex "fc51e67c32a0e9eeab13e855fb57460abb5b99552742d07232faa4097c5d7ee5") /\
  HashChain (zero_bytes 32) 16 =
    unhex "fc51e67c32a0e9eeab13e855fb57460abb5b99552742d07232faa4097c5d7ee5".
Proof.
  split; [|split].
  - intros data iterations Hlen. split; [|split].
    + now apply enhash_rounds.
    + unfold enhash_default. now rewrite enhash_rounds.
    + unfold HashChain, len. now rewrite le_digits_length.
  - vm_compute. reflexivity.
  - vm_compute. reflexivity.
Qed.

Lemma enhash_hash_chain_witness :
  len (repeat "a"%byte 32) = 32 /\
  enhash (repeat "a"%byte 32) 3 =
    Ok (HashChain (repeat "a"%byte 32) (S (Z.to_nat (3 - 1)))).
Proof.
  split; [reflexivity|].
  exact (proj1 (proj1 enhash_hash_chain (repeat "a"%byte 32) 3 eq_refl)).
Defined.

(** C4.  For every Nonce state [(b, counter, prefix)], a call of
    [__next__] leaves an object with the counter one higher and the same
    prefix and byte length; and whenever [enc] is the little-endian
    encoding of the state's counter on [b] bytes (there is one as soon as
    [0 <= counter < 2^(8b)]), the call returns
    [SHA-256(prefix ++ enc)] cut to [b] bytes. *)
Theorem nonce_next_draw (s : Nonce.t) :
  snd (Nonce.__next__ s) =
    Nonce.mk (Nonce._bytes s) (Nonce._count s + 1) (Nonce._prefix s) /\
  (0 <= Nonce._count s < 2 ^ (8 * Nonce._bytes s) ->
   exists enc, len enc = Nonce._bytes s /\
               int_from_bytes_le enc = Nonce._count s) /\
  (forall enc : bytes,
      len enc = Nonce._bytes s ->
      int_from_bytes_le enc = Nonce._count s ->
      fst (Nonce.__next__ s) =
        Ok (firstn (Z.to_nat (Nonce._bytes s))
                   (SHA256.hash (Nonce._prefix s ++ enc)))).
Proof.
  split; [apply next_state|split].
  - intros H.
    destruct (int_to_bytes_le (Nonce._count s) (Nonce._bytes s))
      as [enc|e] eqn:E.
    + exists enc. now apply int_to_bytes_le_inv in E.
    + now rewrite int_to_bytes_le_ok in E.
  - intros enc Hl Hv.
    assert (R : 0 <= Nonce._count s < 2 ^ (8 * Nonce._bytes s)).
    { rewrite <- Hv, <- Hl. apply int_from_bytes_le_range. }
    assert (0 <= Nonce._bytes s) by (unfold len in Hl; lia).
    assert (E : le_digits (Z.to_nat (Nonce._bytes s)) (Nonce._count s) = enc).
    { apply int_from_bytes_le_inj.
      - rewrite le_digits_length. unfold len in Hl. lia.
      - rewrite int_from_le_digits, Hv, Z2Nat.id by assumption.
        now apply Z.mod_small. }
    rewrite next_value by assumption. now rewrite E.
Qed.

Lemma nonce_next_draw_witness :
  len [x01; x00] = 2 /\ int_from_bytes_le [x01; x00] = 1 /\
  fst (Nonce.__next__ (Nonce.mk 2 1 [x70])) =
    Ok (firstn (Z.to_nat 2) (SHA256.hash ([x70] ++ [x01; x00]))).
Proof.
  split; [reflexivity|split; [reflexivity|]].
  apply (proj2 (proj2 (nonce_next_draw (Nonce.mk 2 1 [x70])))
           [x01; x00]); reflexivity.
Defined.

(** C10.  [__next__] returns a value exactly when the counter of the
    state fits the byte length as an unsigned integer,
    [0 <= counter < 2^(8b)] (for a negative [b] no counter does); in
    every other state the encoding raises ([OverflowError], or
    [ValueError] for a negative length) and no value is handed out: the
    counter is never wrapped around to a value used before. *)
Theorem nonce_next_overflow (s : Nonce.t) :
  (is_ok (fst (Nonce.__next__ s)) = true <->
   0 <= Nonce._count s < 2 ^ (8 * Nonce._bytes s)) /\
  (~ (0 <= Nonce._count s < 2 ^ (8 * Nonce._bytes s)) ->
   fst (Nonce.__next__ s) =
     Raise (if Nonce._bytes s <? 0 then ValueError else OverflowError)).
Proof.
  split; [apply next_ok_iff|apply next_raises].
Qed.

Lemma nonce_next_overflow_witness :
  ~ (0 <= 256 < 2 ^ (8 * 1)) /\
  fst (Nonce.__next__ (Nonce.mk 1 256 [x70])) = Raise OverflowError /\
  is_ok (fst (Nonce.__next__ (Nonce.mk 1 255 [x70]))) = true.
Proof.
  split; [cbn; lia|split].
  - apply (proj2 (nonce_next_overflow (Nonce.mk 1 256 [x70]))). cbn; lia.
  - apply (proj1 (nonce_next_overflow (Nonce.mk 1 255 [x70]))). cbn; lia.
Defined.

(** ** Claims on [enscrypt] *)

(** A run that can be evaluated at once: with [logN = 0] the cost
    parameter is 1, which the KDF rejects; the buffer keeps its zero
    bytes through all three rounds and the key is all zero. *)
Example enscrypt_rejected_cost :
  enscrypt (fun n => Z.of_nat n) 3 [x70] [x73] 0 3 0 world0 =
  Some (Ok (3, 2, zero_bytes 32),
        mkWorld 3 [([x70], [x73]);
                   ([x70], zero_bytes 32);
                   ([x70], zero_bytes 32)]).
Proof. vm_compute. reflexivity. Qed.

Lemma stretch_key_value (passwd salt : bytes) (N : Z) (n : nat) :
  int_from_bytes_le (stretch_key passwd salt N n) =
  xor_digests passwd salt N n.
Proof.
  unfold stretch_key. rewrite int_from_le_digits.
  apply Z.mod_small. apply xor_digests_range.
Qed.

Lemma MemoryHardStretch_digest_length (passwd salt : bytes) (N : Z) :
  List.length (MemoryHardStretch_digest passwd salt N 0) = 32%nat.
Proof.
  unfold MemoryHardStretch_digest. cbn [Nat.iter nat_rect].
  apply kdf_out_length, zero_bytes_length.
Qed.

(** The calls of two rounds are not those of the specification unless
    the passphrase happens to have the length of a digest. *)
Lemma stretch_calls_differ (passwd salt : bytes) (N : Z) :
  List.length passwd <> 32%nat ->
  stretch_calls passwd salt N 2 <> MemoryHardStretch_calls passwd salt N 2.
Proof.
  intros Hlen E. unfold stretch_calls, MemoryHardStretch_calls in E.
  cbn [Nat.pred seq map] in E.
  remember (MemoryHardStretch_digest passwd salt N 0) as d eqn:Hd.
  remember (round_digest passwd salt N 0) as d' eqn:Hd'.
  injection E as E1 E2. apply Hlen. rewrite E1, Hd.
  apply MemoryHardStretch_digest_length.
Qed.

(** C1 (amended).  Whenever the clock lets the loop end ([m] readings
    short of [start + seconds], then one that is not), [enscrypt] returns
    after [n = 1 + max(0, iterations - 1) + m] rounds.  Round 0 is the
    KDF over the passphrase and the salt; every further round calls the
    same KDF with the passphrase still as the password and the digest of
    the round before as the salt.  All digests have 32 bytes, and the
    returned key, read as a little-endian integer, is the XOR of the
    digests of all rounds read the same way. *)
Theorem enscrypt_rounds_chain (clock : nat -> Z) (fuel : nat)
    (passwd salt : bytes) (logN iterations seconds : Z) (w : world)
    (m : nat) :
  0 <= logN ->
  (forall j, (j < m)%nat ->
     clock (S (clock_reads w) + j)%nat < clock (clock_reads w) + seconds) ->
  clock (clock_reads w) + seconds <= clock (S (clock_reads w) + m)%nat ->
  (Z.to_nat (iterations - 1) + m < fuel)%nat ->
  let N := cost logN in
  let n := S (Z.to_nat (iterations - 1) + m) in
  exists (t : Z) (key : bytes) (w' : world),
    enscrypt clock fuel passwd salt logN iterations seconds w =
      Some (Ok (Z.of_nat n, t, key), w') /\
    kdf_calls w' =
      kdf_calls w ++
      (passwd, salt) ::
      map (fun k => (passwd, round_digest passwd salt N k))
          (seq 0 (Nat.pred n)) /\
    round_digest passwd salt N 0 =
      kdf_out passwd (len passwd) salt (len salt) N (zero_bytes 32) /\
    (forall k : nat,
        round_digest passwd salt N (S k) =
        kdf_out passwd (len passwd) (round_digest passwd salt N k) 32 N
                (round_digest passwd salt N k)) /\
    (forall k : nat, len (round_digest passwd salt N k) = 32) /\
    len key = 32 /\
    int_from_bytes_le key =
      fold_right Z.lxor 0
        (map (fun k => int_from_bytes_le (round_digest passwd salt N k))
             (seq 0 n)).
Proof.
  intros HlogN Hlt Hge Hfuel N n.
  exists (clock (S (S (clock_reads w) + m)) - clock (clock_reads w)).
  exists (stretch_key passwd salt N n).
  exists (mkWorld (S (S (S (clock_reads w) + m)))
                  (kdf_calls w ++ stretch_calls passwd salt N n)).
  split; [now apply enscrypt_run|].
  split; [reflexivity|].
  split; [reflexivity|].
  split; [intros k; apply round_digest_S|].
  split; [intros k; unfold len; now rewrite round_digest_length|].
  split; [unfold stretch_key, len; now rewrite le_digits_length|].
  apply stretch_key_value.
Qed.

Lemma enscrypt_rounds_chain_witness :
  exists (t : Z) (key : bytes) (w' : world),
    enscrypt (fun n => Z.of_nat n) 4 [x70] [x73] 1 3 1 world0 =
      Some (Ok (3, t, key), w') /\
    kdf_calls w' =
      [([x70], [x73]);
       ([x70], round_digest [x70] [x73] (cost 1) 0);
       ([x70], round_digest [x70] [x73] (cost 1) 1)].
Proof.
  destruct (enscrypt_rounds_chain (fun n => Z.of_nat n) 4 [x70] [x73]
              1 3 1 world0 0)
    as (t & key & w' & Hrun & Hcalls & _).
  - lia.
  - intros j Hj. lia.
  - cbn. lia.
  - cbn. lia.
  - exists t, key, w'. split; [exact Hrun|exact Hcalls].
Defined.

(** The claim as stated fails on the call
    [enscrypt(b"p", b"s", 1, 2)]: its second KDF call has the passphrase
    [b"p"] as password, not the 32-byte digest of the first round. *)
Lemma enscrypt_password_counterexample :
  exists (t : Z) (key : bytes) (w' : world),
    enscrypt (fun _ => 0) 2 [x70] [x73] 1 2 0 world0 =
      Some (Ok (2, t, key), w') /\
    kdf_calls w' <> MemoryHardStretch_calls [x70] [x73] (cost 1) 2.
Proof.
  pose proof (enscrypt_counted (fun _ => 0) 2 [x70] [x73] 1 2 world0) as H.
  do 3 eexists. split.
  - apply H; [lia|intros i j _; lia|cbn; lia].
  - cbn [kdf_calls world0 app].
    apply stretch_calls_differ. cbn. lia.
Qed.

(** C2.  With [seconds = 0], whatever the process clock reads (as long
    as it does not run backwards), [enscrypt] makes exactly
    [max(1, iterations)] KDF calls, returns that number as the iteration
    count, which is [iterations] itself from 1 on, and returns one and
    the same key in any two runs on the same inputs. *)
Theorem enscrypt_exact_rounds (clock1 clock2 : nat -> Z) (fuel1 fuel2 : nat)
    (passwd salt : bytes) (logN iterations : Z) (w : world) :
  0 <= logN -> monotone clock1 -> monotone clock2 ->
  (Z.to_nat (iterations - 1) < fuel1)%nat ->
  (Z.to_nat (iterations - 1) < fuel2)%nat ->
  exists (t1 t2 : Z) (key : bytes) (w1 w2 : world)
         (new1 new2 : list (bytes * bytes)),
    enscrypt clock1 fuel1 passwd salt logN iterations 0 w =
      Some (Ok (Z.max 1 iterations, t1, key), w1) /\
    enscrypt clock2 fuel2 passwd salt logN iterations 0 w =
      Some (Ok (Z.max 1 iterations, t2, key), w2) /\
    kdf_calls w1 = kdf_calls w ++ new1 /\
    kdf_calls w2 = kdf_calls w ++ new2 /\
    len new1 = Z.max 1 iterations /\
    len new2 = Z.max 1 iterations /\
    (1 <= iterations -> Z.max 1 iterations = iterations).
Proof.
  intros HlogN Hm1 Hm2 Hf1 Hf2.
  pose proof (enscrypt_counted clock1 fuel1 passwd salt logN iterations w
                HlogN Hm1 Hf1) as H1.
  pose proof (enscrypt_counted clock2 fuel2 passwd salt logN iterations w
                HlogN Hm2 Hf2) as H2.
  do 5 eexists.
  exists (stretch_calls passwd salt (cost logN) (Z.to_nat (Z.max 1 iterations))).
  exists (stretch_calls passwd salt (cost logN) (Z.to_nat (Z.max 1 iterations))).
  split; [exact H1|]. split; [exact H2|].
  split; [reflexivity|]. split; [reflexivity|].
  assert (L : len (stretch_calls passwd salt (cost logN)
                     (Z.to_nat (Z.max 1 iterations))) = Z.max 1 iterations).
  { replace (Z.to_nat (Z.max 1 iterations))
      with (S (Z.to_nat (iterations - 1))) by lia.
    unfold len. rewrite stretch_calls_length. lia. }
  split; [exact L|]. split; [exact L|]. lia.
Qed.

Lemma enscrypt_exact_rounds_witness :
  exists (t1 t2 : Z) (key : bytes) (w1 w2 : world),
    enscrypt (fun n => Z.of_nat n) 3 [x70] [x73] 1 3 0 world0 =
      Some (Ok (3, t1, key), w1) /\
    enscrypt (fun n => 7 * Z.of_nat n) 5 [x70] [x73] 1 3 0 world0 =
      Some (Ok (3, t2, key), w2) /\
    len (kdf_calls w1) = 3 /\ len (kdf_calls w2) = 3.
Proof.
  destruct (enscrypt_exact_rounds (fun n => Z.of_nat n)
              (fun n => 7 * Z.of_nat n) 3 5 [x70] [x73] 1 3 world0)
    as (t1 & t2 & key & w1 & w2 & new1 & new2 &
        H1 & H2 & C1 & C2 & L1 & L2 & _).
  - lia.
  - intros i j Hij. lia.
  - intros i j Hij. lia.
  - cbn. lia.
  - cbn. lia.
  - exists t1, t2, key, w1, w2.
    split; [exact H1|]. split; [exact H2|].
    rewrite C1, C2. split; [exact L1|exact L2].
Defined.

(** ** Claims on [KeyGen], [sign] and [verify] *)

(** A seed that counts as true fixes the generator, whatever the system
    would serve: any calls in a row then return the same on two objects
    made from it. *)
Lemma keygen_seeded_deterministic {MT : SeededRandom} {NA : SodiumSign}
    (seed : py_seed) (os1 os2 : nat -> byte) (cs : list keygen_call) :
  truthy seed = true ->
  run_calls cs (KeyGen.__init__ seed os1) =
  run_calls cs (KeyGen.__init__ seed os2).
Proof.
  intros H. unfold KeyGen.__init__. now rewrite H.
Qed.

(** C5.  The code at the failing input: [KeyGen(0)] is given a seed,
    but [if seed:] takes [0] for no seed and builds the system
    generator; two objects made with seed [0] return different identity
    unlock keys as soon as the system serves them different bytes. *)
Theorem keygen_zero_seed_not_deterministic :
  forall (MT : SeededRandom) (NA : SodiumSign),
    run_calls [Call_identity_unlock_key]
              (KeyGen.__init__ (SeedInt 0) (fun _ => x00)) <>
    run_calls [Call_identity_unlock_key]
              (KeyGen.__init__ (SeedInt 0) (fun _ => xff)).
Proof.
  intros MT NA. vm_compute. discriminate.
Qed.

(** C6.  The code at every input: [verify_unlock_key] and
    [server_unlock_key] name [crypto_sign_seed_keypair], which the
    module never binds (pysodium is imported as [na] only), so both
    raise [NameError] instead of returning a public key. *)
Theorem unlock_keys_name_error :
  forall (NA : SodiumSign) (ilk rlk : bytes),
    KeyGen.verify_unlock_key ilk rlk =
      Raise (NameError "crypto_sign_seed_keypair") /\
    KeyGen.server_unlock_key rlk =
      Raise (NameError "crypto_sign_seed_keypair").
Proof. intros NA ilk rlk. split; reflexivity. Qed.

(** C7.  The code at every input: [sign] and [verify] name functions
    the module never binds, so [sign] raises [NameError] and [verify]
    raises [NameError] for a genuine signature as for a forged one; no
    call of [verify] succeeds. *)
Theorem verify_name_error :
  forall (NA : SodiumSign) (message sk pk sig msg : bytes),
    sign message sk pk = Raise (NameError "crypto_sign_detached") /\
    verify sig msg pk = Raise (NameError "crypto_sign_verify_detached").
Proof. intros NA message sk pk sig msg. split; reflexivity. Qed.

(** Every group of a rescue code has one to four digits. *)
Lemma str_group_digits (n : Z) :
  0 <= n < 10000 -> (1 <= String.length (str n) <= 4)%nat.
Proof.
  intros H.
  assert (A : forallb (fun k => let l := String.length (str (Z.of_nat k)) in
                                ((1 <=? l)%nat && (l <=? 4)%nat)%bool)
                      (seq 0 (Z.to_nat 10000)) = true)
    by (vm_compute; reflexivity).
  rewrite forallb_forall in A.
  specialize (A (Z.to_nat n)). rewrite Z2Nat.id in A by lia.
  assert (I : In (Z.to_nat n) (seq 0 (Z.to_nat 10000)))
    by (apply in_seq; lia).
  apply A in I. cbv zeta in I.
  apply andb_true_iff in I. destruct I as [I1 I2].
  apply Nat.leb_le in I1. apply Nat.leb_le in I2. lia.
Qed.

(** C8.  The code at the failing input: when the six draws are 926,
    1500, 1390, 5915, 2770 and 5048 the rescue code is
    ["926-1500-1390-5915-2770-5048"], six groups but 23 digits: a draw
    below 1000 is written without leading zeros. *)
Theorem rescue_code_short_group :
  forall (MT : SeededRandom),
  exists self' : rng,
    KeyGen.rescue_code 1 (KeyGen.__init__ SeedNone os_sample) =
      Some (Ok "926-1500-1390-5915-2770-5048"%string, self') /\
    count_digits "926-1500-1390-5915-2770-5048" = 23%nat.
Proof.
  intros MT. eexists. split; [vm_compute; reflexivity|reflexivity].
Qed.

(** The claim as stated fails on any input: the call returns [None]
    normally, it is not an error result. *)
Lemma unlock_request_signing_key_counterexample :
  ~ exists e : exn,
      KeyGen.unlock_request_signing_key (zero_bytes 32) (zero_bytes 32) =
      Raise e.
Proof. intros [e H]. discriminate H. Qed.

(** C9 (amended).  For all inputs [suk] and [iuk],
    [unlock_request_signing_key] performs no key derivation and returns
    [None]: no key, and no error either. *)
Theorem unlock_request_signing_key_none :
  forall suk iuk : bytes,
    KeyGen.unlock_request_signing_key suk iuk = Ok None.
Proof. reflexivity. Qed.

(** * Further properties *)

(** ** [sha256sum] and [Nonce] *)

(** Decoding then encoding on the same number of bytes gives the bytes
    back. *)
Lemma le_digits_of_bytes (u : bytes) :
  le_digits (List.length u) (int_from_bytes_le u) = u.
Proof.
  apply int_from_bytes_le_inj.
  - apply le_digits_length.
  - rewrite int_from_le_digits. apply Z.mod_small.
    apply int_from_bytes_le_range.
Qed.

(** X1.  [sha256sum(b, n)] never has more than the 32 bytes of the
    digest: its length is [min(n, 32)] for [n >= 0], and [max(0, 32 + n)]
    for a negative [n], which Python's slice counts from the end. *)
Theorem sha256sum_length (b : bytes) (n : Z) :
  len (sha256sum b n) =
  if n <? 0 then Z.max 0 (32 + n) else Z.min n 32.
Proof.
  unfold sha256sum, slice_to, len. cbv zeta.
  rewrite crypto_hash_sha256_whole.
  destruct (Z.ltb_spec n 0);
    rewrite length_firstn, sha256_length; unfold len;
    rewrite ?sha256_length; lia.
Qed.

(** X2.  A value drawn from a Nonce has [min(b, 32)] bytes: a byte
    length above 32 still yields 32 bytes, the counter being encoded on
    [b] bytes all the same. *)
Theorem nonce_value_length (s : Nonce.t) (v : bytes) :
  fst (Nonce.__next__ s) = Ok v ->
  len v = Z.min (Nonce._bytes s) 32.
Proof.
  intros H.
  assert (R : 0 <= Nonce._count s < 2 ^ (8 * Nonce._bytes s)).
  { apply next_ok_iff. now rewrite H. }
  rewrite next_value in H by assumption. injection H as <-.
  unfold len. rewrite length_firstn, sha256_length.
  assert (0 <= Nonce._bytes s).
  { destruct (Z.leb_spec 0 (Nonce._bytes s)); [assumption|].
    rewrite Z.pow_neg_r in R by lia. lia. }
  lia.
Qed.

Lemma nonce_value_length_witness :
  exists v : bytes,
    fst (Nonce.__next__ (Nonce.mk 40 1 [x70])) = Ok v /\ len v = 32.
Proof.
  eexists. split.
  - vm_compute. reflexivity.
  - refine (nonce_value_length (Nonce.mk 40 1 [x70]) _ _).
    vm_compute. reflexivity.
Defined.

(** X3.  In [n] draws in a row the counter ends [n] higher whether or
    not draws raised, and the [k]-th draw returns a value exactly when
    [0 <= counter + k < 2^(8b)]: a negative start raises until the
    counter reaches 0, and once the counter has left the range every
    later draw raises. *)
Theorem nonce_draws_ok_iff (n : nat) (s : Nonce.t) (k : nat) :
  (k < n)%nat ->
  snd (Nonce.draws n s) =
    Nonce.mk (Nonce._bytes s) (Nonce._count s + Z.of_nat n) (Nonce._prefix s) /\
  exists r : result bytes,
    nth_error (fst (Nonce.draws n s)) k = Some r /\
    (is_ok r = true <->
     0 <= Nonce._count s + Z.of_nat k < 2 ^ (8 * Nonce._bytes s)).
Proof.
  intros Hk. rewrite draws_spec. cbn [fst snd]. split; [reflexivity|].
  eexists. split.
  - apply map_nth_error. rewrite nth_error_seq.
    destruct (Nat.ltb_spec k n); [reflexivity|lia].
  - cbn [Nat.add].
    exact (next_ok_iff (Nonce.mk (Nonce._bytes s)
                                 (Nonce._count s + Z.of_nat k)
                                 (Nonce._prefix s))).
Qed.

(** X4.  [__setstate__] undoes [__getstate__]: the restored object is
    the saved one (no fresh prefix is drawn) and goes on with the same
    draws. *)
Theorem nonce_setstate_getstate (s : Nonce.t) (fresh : bytes) (n : nat) :
  Nonce.__setstate__ (Nonce.__getstate__ s) fresh = s /\
  Nonce.draws n (Nonce.__setstate__ (Nonce.__getstate__ s) fresh) =
  Nonce.draws n s.
Proof.
  assert (E : Nonce.__setstate__ (Nonce.__getstate__ s) fresh = s)
    by (destruct s; reflexivity).
  split; [exact E|now rewrite E].
Qed.

Lemma nonce_draws_ok_iff_witness :
  exists r : result bytes,
    nth_error (fst (Nonce.draws 3 (Nonce.mk 1 254 [x70]))) 2 = Some r /\
    (is_ok r = true <-> 0 <= 254 + Z.of_nat 2 < 2 ^ (8 * 1)).
Proof.
  exact (proj2 (nonce_draws_ok_iff 3 (Nonce.mk 1 254 [x70]) 2
                  (Nat.lt_succ_diag_r 2))).
Defined.

(** ** [enhash] and the keys derived with it *)

Lemma enhash_wrong_length (data : bytes) (iterations : Z) :
  len data <> 32 -> enhash data iterations = Raise AssertionError.
Proof.
  intros H. unfold enhash.
  destruct (Z.eqb_spec (len data) KEY_BYTES) as [E|E]; [|reflexivity].
  now elim H.
Qed.

Lemma HashChain_length (x : bytes) (n : nat) : len (HashChain x n) = 32.
Proof. unfold HashChain, len. now rewrite le_digits_length. Qed.

(** X5.  [enhash] raises [AssertionError] on every input that is not 32
    bytes long, whatever the iteration count, and on a 32-byte input it
    returns a 32-byte key: the final [to_bytes] cannot overflow. *)
Theorem enhash_input_length (data : bytes) (iterations : Z) :
  (len data <> 32 -> enhash data iterations = Raise AssertionError) /\
  (len data = 32 ->
   exists key : bytes, enhash data iterations = Ok key /\ len key = 32).
Proof.
  split.
  - apply enhash_wrong_length.
  - intros H. rewrite enhash_rounds by assumption.
    eexists. split; [reflexivity|apply HashChain_length].
Qed.

Lemma enhash_input_length_witness :
  enhash [x70] 16 = Raise AssertionError /\
  exists key : bytes, enhash (zero_bytes 32) 1 = Ok key /\ len key = 32.
Proof.
  split.
  - refine (proj1 (enhash_input_length [x70] 16) _). discriminate.
  - exact (proj2 (enhash_input_length (zero_bytes 32) 1) eq_refl).
Defined.

Lemma HashChain_one (x : bytes) : HashChain x 1 = SHA256.hash x.
Proof.
  unfold HashChain. cbn [seq map fold_right].
  rewrite Z.lxor_0_r.
  unfold round_output. rewrite Nat.iter_succ.
  change (Nat.iter 0 SHA256.hash x) with x.
  rewrite <- (sha256_length x) at 1. apply le_digits_of_bytes.
Qed.

(** X6.  With an iteration count of 1 or less (zero and negative counts
    included) [enhash] of a 32-byte input is its plain SHA-256 digest. *)
Theorem enhash_single_round (data : bytes) (iterations : Z) :
  len data = 32 -> iterations <= 1 ->
  enhash data iterations = Ok (SHA256.hash data).
Proof.
  intros Hl Hi. rewrite enhash_rounds by assumption.
  replace (Z.to_nat (iterations - 1)) with 0%nat by lia.
  now rewrite HashChain_one.
Qed.

Lemma enhash_single_round_witness :
  enhash (zero_bytes 32) (-3) = Ok (SHA256.hash (zero_bytes 32)).
Proof.
  refine (enhash_single_round (zero_bytes 32) (-3) eq_refl _). lia.
Defined.

Lemma lookup_enhash : lookup_global "enhash" = Ok tt.
Proof. reflexivity. Qed.

(** X7.  [identity_master_key] and [local_key] raise [AssertionError]
    on an input that is not 32 bytes long; on a 32-byte key the master
    key is the 16-round hash chain, it is itself a valid input of
    [local_key], and the local key is the 16-round chain of the master
    key, again 32 bytes. *)
Theorem master_and_local_key (x : bytes) :
  (len x <> 32 ->
   KeyGen.identity_master_key x = Raise AssertionError /\
   KeyGen.local_key x = Raise AssertionError) /\
  (len x = 32 ->
   KeyGen.identity_master_key x = Ok (HashChain x 16) /\
   KeyGen.local_key (HashChain x 16) = Ok (HashChain (HashChain x 16) 16) /\
   len (HashChain (HashChain x 16) 16) = 32).
Proof.
  assert (E : forall y, len y = 32 -> enhash_default y = Ok (HashChain y 16)).
  { intros y Hy. unfold enhash_default. now rewrite enhash_rounds. }
  unfold KeyGen.identity_master_key, KeyGen.local_key.
  rewrite lookup_enhash. cbn [bind].
  split; intros H.
  - unfold enhash_default. rewrite (enhash_wrong_length x 16 H). now split.
  - rewrite (E x H), (E _ (HashChain_length x 16)).
    split; [reflexivity|split; [reflexivity|apply HashChain_length]].
Qed.

Lemma master_and_local_key_witness :
  KeyGen.identity_master_key (zero_bytes 32) =
    Ok (HashChain (zero_bytes 32) 16) /\
  KeyGen.identity_master_key [] = Raise AssertionError.
Proof.
  split.
  - exact (proj1 (proj2 (master_and_local_key (zero_bytes 32)) eq_refl)).
  - refine (proj1 (proj1 (master_and_local_key []) _)). discriminate.
Defined.

(** ** [enscrypt] under any clock *)

Lemma loop_at_zero (clock : nat -> Z) (passwd salt : bytes)
    (N iterations end_ : Z) (k r : nat) (b : list (bytes * bytes)) :
  loop_at clock passwd salt N iterations end_ 0 k r b = None.
Proof. reflexivity. Qed.

(** However the clock behaves, a loop that ends has made whole rounds
    and at least as many as asked for. *)
Lemma loop_at_returns (clock : nat -> Z) (passwd salt : bytes)
    (N iterations end_ : Z) (fuel k r : nat) (b : list (bytes * bytes))
    (n acc : Z) (w' : world) :
  loop_at clock passwd salt N iterations end_ fuel k r b = Some (n, acc, w') ->
  exists j : nat,
    n = Z.of_nat (S (k + j)) /\ iterations <= n /\
    acc = xor_digests passwd salt N (S (k + j)) /\
    kdf_calls w' = b ++ stretch_calls passwd salt N (S (k + j)).
Proof.
  revert k r. induction fuel as [|f IH]; intros k r H.
  - rewrite loop_at_zero in H. discriminate.
  - destruct (Z.ltb_spec (Z.of_nat (S k)) iterations) as [Hi|Hi].
    + rewrite loop_counted_step in H by assumption.
      apply IH in H. destruct H as (j & -> & ? & -> & ->).
      exists (S j). rewrite Nat.add_succ_r. repeat split. assumption.
    + destruct (Z.ltb_spec (clock r) end_) as [Ht|Ht].
      * rewrite loop_timed_step in H by assumption.
        apply IH in H. destruct H as (j & -> & ? & -> & ->).
        exists (S j). rewrite Nat.add_succ_r. repeat split. assumption.
      * rewrite loop_exit in H by assumption.
        injection H as <- <- <-. exists 0%nat. rewrite Nat.add_0_r.
        repeat split. assumption.
Qed.

(** What a call of [enscrypt] can give back. *)
Lemma enscrypt_returns (clock : nat -> Z) (fuel : nat) (passwd salt : bytes)
    (logN iterations seconds : Z) (w : world)
    (res : result (Z * Z * bytes)) (w' : world) :
  0 <= logN ->
  enscrypt clock fuel passwd salt logN iterations seconds w = Some (res, w') ->
  exists (n : nat) (t : Z),
    res = Ok (Z.of_nat (S n), t, stretch_key passwd salt (cost logN) (S n)) /\
    iterations <= Z.of_nat (S n) /\
    kdf_calls w' = kdf_calls w ++ stretch_calls passwd salt (cost logN) (S n).
Proof.
  intros HlogN H. rewrite enscrypt_unfold in H by assumption.
  destruct (loop_at _ _ _ _ _ _ _ _ _ _) as [[[i acc] w1]|] eqn:L;
    [|discriminate].
  apply loop_at_returns in L. destruct L as (j & -> & Hi & -> & Hc).
  change KEY_BYTES with 32 in H.
  rewrite int_to_bytes_le_ok in H by apply xor_digests_range.
  cbn [bind] in H. injection H as <- <-.
  exists (0 + j)%nat. eexists. split; [reflexivity|].
  split; [assumption|]. cbn [kdf_calls]. exact Hc.
Qed.

Lemma enscrypt_negative (clock : nat -> Z) (fuel : nat) (passwd salt : bytes)
    (logN iterations seconds : Z) (w : world) :
  logN < 0 ->
  enscrypt clock fuel passwd salt logN iterations seconds w =
  Some (Raise ValueError, w).
Proof.
  intros H. unfold enscrypt. now rewrite (proj2 (Z.ltb_lt _ _) H).
Qed.

(** X8.  [enscrypt] raises exactly when [logN] is negative: then it is
    the [ValueError] of the shift, raised before any KDF call and before
    the clock is read; for [logN >= 0] a call that comes back never
    comes back with an exception. *)
Theorem enscrypt_error_iff (clock : nat -> Z) (fuel : nat)
    (passwd salt : bytes) (logN iterations seconds : Z) (w w' : world)
    (e : exn) :
  enscrypt clock fuel passwd salt logN iterations seconds w =
    Some (Raise e, w') <->
  logN < 0 /\ e = ValueError /\ w' = w.
Proof.
  split.
  - intros H. destruct (Z.ltb_spec logN 0) as [Hn|Hn].
    + rewrite enscrypt_negative in H by assumption.
      injection H as <- <-. now repeat split.
    + apply enscrypt_returns in H; [|assumption].
      destruct H as (n & t & H & _). discriminate H.
  - intros (Hn & -> & ->). now apply enscrypt_negative.
Qed.

(** X9.  Whatever the clock reads, when [enscrypt] returns
    [(n, t, key)] it has made exactly [n] KDF calls, all of them with the
    passphrase as password, [n] is at least [max(1, iterations)], and the
    key is the one fixed by the passphrase, the salt, [logN] and [n]
    alone: the time limit only decides how many rounds are made. *)
Theorem enscrypt_sound (clock : nat -> Z) (fuel : nat)
    (passwd salt : bytes) (logN iterations seconds : Z) (w w' : world)
    (n t : Z) (key : bytes) :
  enscrypt clock fuel passwd salt logN iterations seconds w =
    Some (Ok (n, t, key), w') ->
  0 <= logN /\ Z.max 1 iterations <= n /\
  key = stretch_key passwd salt (cost logN) (Z.to_nat n) /\
  exists new : list (bytes * bytes),
    kdf_calls w' = kdf_calls w ++ new /\ len new = n /\
    (forall pw s, In (pw, s) new -> pw = passwd).
Proof.
  intros H.
  assert (HlogN : 0 <= logN).
  { destruct (Z.ltb_spec logN 0) as [Hn|Hn]; [|assumption].
    rewrite enscrypt_negative in H by assumption. discriminate H. }
  apply enscrypt_returns in H; [|assumption].
  destruct H as (m & t' & E & Hi & Hc).
  assert (En : n = Z.of_nat (S m)) by congruence.
  assert (Ek : key = stretch_key passwd salt (cost logN) (S m)) by congruence.
  clear E. subst n key. rewrite Nat2Z.id.
  split; [assumption|]. split; [lia|]. split; [reflexivity|].
  exists (stretch_calls passwd salt (cost logN) (S m)).
  split; [assumption|]. split.
  - unfold len. now rewrite stretch_calls_length.
  - intros pw s Hin. unfold stretch_calls in Hin.
    destruct Hin as [Hin|Hin]; [congruence|].
    apply in_map_iff in Hin. destruct Hin as (k & Hk & _). congruence.
Qed.

Lemma enscrypt_sound_witness :
  enscrypt (fun n => Z.of_nat n) 10 [x70] [x73] 0 1 3 world0 =
    Some (Ok (3, 4, zero_bytes 32),
          mkWorld 5 [([x70], [x73]); ([x70], zero_bytes 32);
                     ([x70], zero_bytes 32)]) /\
  Z.max 1 1 <= 3 /\
  zero_bytes 32 = stretch_key [x70] [x73] (cost 0) (Z.to_nat 3).
Proof.
  assert (H : enscrypt (fun n => Z.of_nat n) 10 [x70] [x73] 0 1 3 world0 =
              Some (Ok (3, 4, zero_bytes 32),
                    mkWorld 5 [([x70], [x73]); ([x70], zero_bytes 32);
                               ([x70], zero_bytes 32)]))
    by (vm_compute; reflexivity).
  split; [exact H|].
  pose proof (enscrypt_sound _ _ _ _ _ _ _ _ _ _ _ _ H) as S.
  split; [exact (proj1 (proj2 S))|exact (proj1 (proj2 (proj2 S)))].
Defined.

(** X10.  The key of any run can be derived again without the clock:
    if [enscrypt] returned [(n, t, key)], whatever its time limit, then
    [enscrypt] on the same passphrase, salt and [logN] with
    [iterations = n] and [seconds = 0] returns [n] and the same key. *)
Theorem enscrypt_reproducible (clock clock2 : nat -> Z) (fuel fuel2 : nat)
    (passwd salt : bytes) (logN iterations seconds : Z) (w w' w2 : world)
    (n t : Z) (key : bytes) :
  enscrypt clock fuel passwd salt logN iterations seconds w =
    Some (Ok (n, t, key), w') ->
  monotone clock2 ->
  (Z.to_nat (n - 1) < fuel2)%nat ->
  exists (t2 : Z) (w2' : world),
    enscrypt clock2 fuel2 passwd salt logN n 0 w2 =
      Some (Ok (n, t2, key), w2').
Proof.
  intros H Hm Hf.
  assert (HlogN : 0 <= logN).
  { destruct (Z.ltb_spec logN 0) as [Hn|Hn]; [|assumption].
    rewrite enscrypt_negative in H by assumption. discriminate H. }
  apply enscrypt_returns in H; [|assumption].
  destruct H as (m & t' & E & _ & _).
  assert (En : n = Z.of_nat (S m)) by congruence.
  assert (Ek : key = stretch_key passwd salt (cost logN) (S m)) by congruence.
  clear E. subst n key.
  rewrite (enscrypt_counted clock2 fuel2 passwd salt logN _ w2 HlogN Hm Hf).
  replace (Z.max 1 (Z.of_nat (S m))) with (Z.of_nat (S m)) by lia.
  rewrite Nat2Z.id. do 2 eexists. reflexivity.
Qed.

Lemma enscrypt_reproducible_witness :
  exists (t2 : Z) (w2' : world),
    enscrypt (fun _ => 0) 3 [x70] [x73] 0 3 0 world0 =
      Some (Ok (3, t2, zero_bytes 32), w2').
Proof.
  refine (enscrypt_reproducible (fun n => Z.of_nat n) (fun _ => 0) 10 3
            [x70] [x73] 0 1 3 world0
            (mkWorld 5 [([x70], [x73]); ([x70], zero_bytes 32);
                        ([x70], zero_bytes 32)])
            world0 3 4 (zero_bytes 32) _ _ _).
  - vm_compute. reflexivity.
  - intros i j _. lia.
  - cbn. lia.
Defined.

Lemma cost_rejected (logN : Z) : logN = 0 \/ 64 <= logN -> cost logN < 2.
Proof.
  intros [->|H]; [reflexivity|].
  unfold cost. rewrite Z.shiftl_1_l.
  replace logN with (64 + (logN - 64)) by lia.
  rewrite Z.pow_add_r by lia.
  rewrite Z.mul_comm, Z_mod_mult. lia.
Qed.

Lemma kdf_out_rejected (passwd : bytes) (pwlen : Z) (salt : bytes)
    (saltlen N : Z) (out : bytes) :
  N < 2 -> kdf_out passwd pwlen salt saltlen N out = out.
Proof.
  intros H. unfold kdf_out, _kdf, Scrypt.scrypt.
  now rewrite (proj2 (Z.ltb_lt _ _) H).
Qed.

Lemma round_digest_rejected (passwd salt : bytes) (N : Z) (k : nat) :
  N < 2 -> round_digest passwd salt N k = zero_bytes 32.
Proof.
  intros H. induction k as [|k IH].
  - unfold round_digest. cbn [Nat.iter nat_rect].
    now apply kdf_out_rejected.
  - rewrite round_digest_S, kdf_out_rejected by assumption. exact IH.
Qed.

Lemma xor_digests_rejected (passwd salt : bytes) (N : Z) (n : nat) :
  N < 2 -> xor_digests passwd salt N n = 0.
Proof.
  intros H. induction n as [|n IH].
  - reflexivity.
  - rewrite xor_digests_S, IH, round_digest_rejected by assumption.
    reflexivity.
Qed.

(** X11.  With [logN = 0] or [logN >= 64] the cost handed to the KDF is
    1 or 0; the KDF rejects it, its return code is not looked at, and
    the buffer keeps its zero bytes: every call that returns then
    returns the all-zero key, whatever the passphrase and the salt. *)
Theorem enscrypt_zero_key (clock : nat -> Z) (fuel : nat)
    (passwd salt : bytes) (logN iterations seconds : Z) (w w' : world)
    (n t : Z) (key : bytes) :
  logN = 0 \/ 64 <= logN ->
  enscrypt clock fuel passwd salt logN iterations seconds w =
    Some (Ok (n, t, key), w') ->
  key = zero_bytes 32.
Proof.
  intros Hc H.
  apply enscrypt_returns in H; [|lia].
  destruct H as (m & t' & E & _ & _).
  assert (Ek : key = stretch_key passwd salt (cost logN) (S m)) by congruence.
  rewrite Ek. unfold stretch_key.
  rewrite xor_digests_rejected by now apply cost_rejected.
  reflexivity.
Qed.

Lemma enscrypt_zero_key_witness :
  exists (t : Z) (key : bytes) (w' : world),
    enscrypt (fun _ => 0) 3 [x70; x71] [x73] 64 2 0 world0 =
      Some (Ok (2, t, key), w') /\
    key = zero_bytes 32.
Proof.
  assert (H : enscrypt (fun _ => 0) 3 [x70; x71] [x73] 64 2 0 world0 =
              Some (Ok (2, 0, zero_bytes 32),
                    mkWorld 3 [([x70; x71], [x73]);
                               ([x70; x71], zero_bytes 32)]))
    by (vm_compute; reflexivity).
  do 3 eexists. split; [exact H|].
  refine (enscrypt_zero_key _ _ _ _ _ _ _ _ _ _ _ _ _ H). right. lia.
Defined.

Lemma enscrypt_error_iff_witness :
  enscrypt (fun _ => 0) 0 [x70] [x73] (-1) 2 0 world0 =
    Some (Raise ValueError, world0).
Proof.
  refine (proj2 (enscrypt_error_iff (fun _ => 0) 0 [x70] [x73] (-1) 2 0
                   world0 world0 ValueError) _).
  split; [lia|split; reflexivity].
Defined.

(** ** [KeyGen] on the system generator *)

Lemma system_getrandbits_bytes (count : Z) (g : system_random) :
  0 <= count ->
  system_getrandbits (count * 8) g =
  (int_from_bytes_be (map (os_bytes g) (seq (os_taken g) (Z.to_nat count))),
   mkSystem (os_bytes g) (os_taken g + Z.to_nat count)).
Proof.
  intros H. unfold system_getrandbits, urandom.
  replace ((count * 8 + 7) / 8) with count
    by (apply Z.div_unique with 7; lia).
  replace (count * 8 - count * 8) with 0 by lia.
  now rewrite Z.shiftr_0_r.
Qed.

Lemma system_randbytes {MT : SeededRandom} (count : Z) (g : system_random) :
  0 <= count ->
  KeyGen.randbytes count (SystemRandom g) =
  (Ok (rev (map (os_bytes g) (seq (os_taken g) (Z.to_nat count)))),
   SystemRandom (mkSystem (os_bytes g) (os_taken g + Z.to_nat count))).
Proof.
  intros H. unfold KeyGen.randbytes, getrandbits.
  rewrite system_getrandbits_bytes by assumption.
  unfold int_from_bytes_be.
  set (b := rev (map (os_bytes g) (seq (os_taken g) (Z.to_nat count)))).
  assert (L : List.length b = Z.to_nat count).
  { subst b. now rewrite length_rev, length_map, length_seq. }
  rewrite int_to_bytes_le_ok.
  - rewrite <- L, le_digits_of_bytes. reflexivity.
  - replace count with (len b) by (unfold len; lia).
    apply int_from_bytes_le_range.
Qed.

(** X12.  On the system generator [randbytes(count)], for [count >= 0],
    never raises: it takes the next [count] bytes the system hands out
    and returns them in reverse order, [count] bytes in all. *)
Theorem randbytes_system :
  forall (MT : SeededRandom) (count : Z) (g : system_random),
    0 <= count ->
    exists out : bytes,
      KeyGen.randbytes count (SystemRandom g) =
        (Ok out,
         SystemRandom (mkSystem (os_bytes g) (os_taken g + Z.to_nat count))) /\
      out = rev (map (os_bytes g) (seq (os_taken g) (Z.to_nat count))) /\
      len out = count.
Proof.
  intros MT count g H. eexists. split; [now apply system_randbytes|].
  split; [reflexivity|].
  unfold len. rewrite length_rev, length_map, length_seq. lia.
Qed.

Lemma randbytes_system_witness :
  exists out : bytes,
    KeyGen.randbytes (MT := sample_random) 2
                     (SystemRandom (mkSystem os_sample 0)) =
      (Ok out, SystemRandom (mkSystem os_sample (0 + Z.to_nat 2))) /\
    out = rev (map os_sample (seq 0 (Z.to_nat 2))) /\ len out = 2.
Proof.
  refine (randbytes_system sample_random 2 (mkSystem os_sample 0) _). lia.
Defined.

(** X13.  A [KeyGen] made without a usable seed draws its identity
    unlock key from the first 32 bytes of system entropy and a random
    lock key drawn after it from the next 32: the two keys share no
    entropy, and both are 32 bytes long. *)
Theorem unlock_and_lock_key_entropy :
  forall (MT : SeededRandom) (seed : py_seed) (os : nat -> byte),
    truthy seed = false ->
    exists (g1 g2 : rng),
      KeyGen.identity_unlock_key (KeyGen.__init__ seed os) =
        (Ok (rev (map os (seq 0 32))), g1) /\
      KeyGen.random_lock_key g1 = (Ok (rev (map os (seq 32 32))), g2) /\
      len (rev (map os (seq 0 32))) = 32 /\
      len (rev (map os (seq 32 32))) = 32.
Proof.
  intros MT seed os H.
  unfold KeyGen.__init__, KeyGen.identity_unlock_key, KeyGen.random_lock_key.
  rewrite H. unfold KEY_BYTES.
  do 2 eexists. split; [|split].
  - rewrite system_randbytes by lia. reflexivity.
  - rewrite system_randbytes by lia. reflexivity.
  - split; unfold len; rewrite length_rev, length_map, length_seq;
      reflexivity.
Qed.

Lemma unlock_and_lock_key_entropy_witness :
  exists (g1 g2 : rng (MT := sample_random)),
    KeyGen.identity_unlock_key (KeyGen.__init__ (SeedInt 0) os_sample) =
      (Ok (rev (map os_sample (seq 0 32))), g1) /\
    KeyGen.random_lock_key g1 = (Ok (rev (map os_sample (seq 32 32))), g2).
Proof.
  destruct (unlock_and_lock_key_entropy sample_random (SeedInt 0) os_sample
              eq_refl)
    as (g1 & g2 & H1 & H2 & _).
  exists g1, g2. split; [exact H1|exact H2].
Defined.

Lemma system_getrandbits_nonneg (k : Z) (g : system_random) :
  0 <= fst (system_getrandbits k g).
Proof.
  unfold system_getrandbits, urandom. cbn [fst].
  apply Z.shiftr_nonneg. unfold int_from_bytes_be.
  apply int_from_bytes_le_range.
Qed.

Lemma randbelow_system {MT : SeededRandom} (fuel : nat) (n : Z)
    (sg : system_random) (r : Z) (g' : rng) :
  _randbelow fuel n (SystemRandom sg) = Some (r, g') ->
  0 <= r < n /\ exists sg', g' = SystemRandom sg'.
Proof.
  revert sg. induction fuel as [|f IH]; intros sg H; [discriminate|].
  cbn [_randbelow getrandbits] in H.
  pose proof (system_getrandbits_nonneg (bit_length n) sg) as Hn.
  destruct (system_getrandbits (bit_length n) sg) as [x sg1].
  cbn [fst] in Hn.
  destruct (Z.leb_spec n x).
  - now apply IH in H.
  - injection H as <- <-. split; [lia|]. now exists sg1.
Qed.

Lemma rescue_groups_system {MT : SeededRandom} (fuel k : nat)
    (sg : system_random) (res : result (list string)) (g' : rng) :
  KeyGen.rescue_groups fuel k (SystemRandom sg) = Some (res, g') ->
  exists (vs : list Z) (sg' : system_random),
    res = Ok (map str vs) /\ List.length vs = k /\
    Forall (fun v => 0 <= v < 10000) vs /\ g' = SystemRandom sg'.
Proof.
  revert sg res g'. induction k as [|k IH]; intros sg res g' H.
  - cbn [KeyGen.rescue_groups] in H. injection H as <- <-.
    exists [], sg. repeat split. constructor.
  - cbn [KeyGen.rescue_groups] in H. unfold randrange in H.
    change (0 <? 10000) with true in H. cbv iota in H.
    destruct (_randbelow fuel 10000 (SystemRandom sg)) as [[r g1]|] eqn:R;
      [|discriminate].
    apply randbelow_system in R. destruct R as (Hr & sg1 & ->).
    destruct (KeyGen.rescue_groups fuel k (SystemRandom sg1))
      as [[[rest|e] g2]|] eqn:G; try discriminate.
    + injection H as <- <-.
      apply IH in G. destruct G as (vs & sg2 & E & L & F & ->).
      injection E as ->.
      exists (r :: vs), sg2. cbn [map List.length].
      repeat split; [now rewrite L|now constructor].
    + apply IH in G. destruct G as (vs & sg2 & E & _). discriminate E.
Qed.

Lemma below_10000 (P : Z -> bool) :
  forallb (fun k => P (Z.of_nat k)) (seq 0 (Z.to_nat 10000)) = true ->
  forall v, 0 <= v < 10000 -> P v = true.
Proof.
  intros A v H. rewrite forallb_forall in A.
  specialize (A (Z.to_nat v)). rewrite Z2Nat.id in A by lia.
  apply A. apply in_seq. lia.
Qed.

Lemma str_digits_facts (v : Z) :
  0 <= v < 10000 ->
  count_digits (str v) = String.length (str v) /\
  (String.length (str v) = 4%nat <-> 1000 <= v).
Proof.
  intros H.
  pose proof (below_10000
                (fun v => let s := str v in
                          (Nat.eqb (count_digits s) (String.length s) &&
                           Bool.eqb (Nat.eqb (String.length s) 4)
                                    (1000 <=? v))%bool)) as E.
  cbv zeta in E. specialize (E ltac:(vm_compute; reflexivity) v H).
  apply andb_true_iff in E. destruct E as [E1 E2].
  apply Nat.eqb_eq in E1. apply Bool.eqb_prop in E2.
  split; [exact E1|].
  rewrite <- Nat.eqb_eq, E2. apply Z.leb_le.
Qed.

Lemma str_all_digits (v : Z) :
  0 <= v < 10000 -> count_digits (str v) = String.length (str v).
Proof. intros H. now apply str_digits_facts. Qed.

Lemma str_four_digits (v : Z) :
  0 <= v < 10000 -> (String.length (str v) = 4%nat <-> 1000 <= v).
Proof. intros H. now apply str_digits_facts. Qed.

Lemma count_digits_app (s1 s2 : string) :
  count_digits (s1 ++ s2) = (count_digits s1 + count_digits s2)%nat.
Proof.
  induction s1 as [|c s1 IH]; [reflexivity|].
  cbn [append count_digits]. rewrite IH. lia.
Qed.

(** The digits of a joined code are the digits of its groups. *)
Lemma join_digits (vs : list Z) :
  Forall (fun v => 0 <= v < 10000) vs ->
  count_digits (join "-" (map str vs)) =
  list_sum (map (fun v => String.length (str v)) vs).
Proof.
  induction 1 as [|v vs Hv F IH]; [reflexivity|].
  destruct vs as [|v2 rest].
  - cbn [map join list_sum fold_right]. rewrite str_all_digits by assumption. lia.
  - change (join "-" (map str (v :: v2 :: rest)))
      with (str v ++ "-" ++ join "-" (map str (v2 :: rest)))%string.
    rewrite !count_digits_app, IH, str_all_digits by assumption.
    cbn [map list_sum fold_right]. reflexivity.
Qed.

Lemma group_digits_sum (vs : list Z) :
  Forall (fun v => 0 <= v < 10000) vs ->
  let total := list_sum (map (fun v => String.length (str v)) vs) in
  (List.length vs <= total <= 4 * List.length vs)%nat /\
  (total = (4 * List.length vs)%nat <-> Forall (fun v => 1000 <= v) vs).
Proof.
  induction 1 as [|v vs Hv F IH]; cbv zeta in *; unfold list_sum in *.
  - cbn. split; [lia|]. split; constructor.
  - cbn [map fold_right List.length].
    pose proof (str_group_digits v Hv) as B.
    pose proof (str_four_digits v Hv) as Q.
    destruct IH as [IH1 IH2]. split; [lia|]. split.
    + intros E. constructor; [apply Q; lia|apply IH2; lia].
    + intros A. inversion A as [|? ? A1 A2]; subst.
      apply Q in A1. apply IH2 in A2. lia.
Qed.

(** X14.  On the system generator a call of [rescue_code] that comes
    back never raises: the code is six decimal numbers below 10000
    joined by ["-"], with between 6 and 24 digits in all, and it has the
    24 digits of the docstring exactly when every one of the six draws
    is at least 1000. *)
Theorem rescue_code_system :
  forall (MT : SeededRandom) (fuel : nat) (sg : system_random)
         (res : result string) (g' : rng),
    KeyGen.rescue_code fuel (SystemRandom sg) = Some (res, g') ->
    exists vs : list Z,
      res = Ok (join "-" (map str vs)) /\
      List.length vs = 6%nat /\
      Forall (fun v => 0 <= v < 10000) vs /\
      (6 <= count_digits (join "-" (map str vs)) <= 24)%nat /\
      (count_digits (join "-" (map str vs)) = 24%nat <->
       Forall (fun v => 1000 <= v) vs).
Proof.
  intros MT fuel sg res g' H. unfold KeyGen.rescue_code in H.
  destruct (KeyGen.rescue_groups fuel 6 (SystemRandom sg))
    as [[[groups|e] g1]|] eqn:G; try discriminate.
  - apply rescue_groups_system in G.
    destruct G as (vs & sg1 & E & L & F & _).
    injection E as ->. injection H as <- <-.
    exists vs. split; [reflexivity|]. split; [assumption|].
    split; [assumption|].
    rewrite join_digits by assumption.
    pose proof (group_digits_sum vs F) as D. cbv zeta in D.
    rewrite L in D. exact D.
  - apply rescue_groups_system in G.
    destruct G as (vs & sg1 & E & _). discriminate E.
Qed.

Lemma rescue_code_system_witness :
  exists vs : list Z,
    Ok "926-1500-1390-5915-2770-5048"%string = Ok (join "-" (map str vs)) /\
    List.length vs = 6%nat.
Proof.
  assert (H : forall MT : SeededRandom,
             KeyGen.rescue_code 1 (SystemRandom (mkSystem os_sample 0)) =
             Some (Ok "926-1500-1390-5915-2770-5048"%string,
                   SystemRandom (mkSystem os_sample 12)))
    by (intros MT; vm_compute; reflexivity).
  destruct (rescue_code_system sample_random 1 _ _ _ (H sample_random))
    as (vs & E & L & _).
  exists vs. split; [exact E|exact L].
Defined.

(** X15.  Two [KeyGen] objects made from one seed return the same for
    every sequence of calls, whatever the system would serve, exactly
    when the seed counts as true: [None], [0] and the empty string or
    bytes all leave the results to the system's entropy. *)
Theorem keygen_deterministic_iff :
  forall (MT : SeededRandom) (NA : SodiumSign) (seed : py_seed),
    (forall (os1 os2 : nat -> byte) (cs : list keygen_call),
        run_calls cs (KeyGen.__init__ seed os1) =
        run_calls cs (KeyGen.__init__ seed os2)) <->
    truthy seed = true.
Proof.
  intros MT NA seed. split.
  - intros H. destruct (truthy seed) eqn:T; [reflexivity|].
    specialize (H (fun _ => x00) (fun _ => xff) [Call_identity_unlock_key]).
    unfold KeyGen.__init__ in H. rewrite T in H.
    vm_compute in H. discriminate H.
  - intros T os1 os2 cs. unfold KeyGen.__init__. now rewrite T.
Qed.

Lemma keygen_deterministic_iff_witness :
  run_calls (MT := sample_random) (NA := sample_sodium)
            [Call_identity_unlock_key; Call_identity_master_key []]
            (KeyGen.__init__ (SeedInt 7) (fun _ => x00)) =
  run_calls (MT := sample_random) (NA := sample_sodium)
            [Call_identity_unlock_key; Call_identity_master_key []]
            (KeyGen.__init__ (SeedInt 7) (fun _ => xff)).
Proof.
  exact (proj2 (keygen_deterministic_iff sample_random sample_sodium
                  (SeedInt 7)) eq_refl _ _ _).
Defined.

(** X16.  [identity_lock_key] and [public_key] name
    [crypto_sign_seed_keypair] like the unlock keys do; the module does
    not bind it, so both raise [NameError] on every input and no
    identity lock key can be derived. *)
Theorem lock_key_name_error :
  forall (NA : SodiumSign) (iuk sk : bytes),
    KeyGen.identity_lock_key iuk =
      Raise (NameError "crypto_sign_seed_keypair") /\
    KeyGen.public_key sk = Raise (NameError "crypto_sign_seed_keypair").
Proof. intros NA iuk sk. split; reflexivity. Qed.

(** ** What a Nonce hashes *)

(** X17.  Under one prefix and byte length, draws from two different
    counters hash two different messages: when both counters can be
    encoded on [b] bytes, [prefix ++ encoding] differs as soon as the
    counters do, so two values of one stream can coincide only through
    a collision of the truncated SHA-256. *)
Theorem nonce_hashed_message_injective (b c1 c2 : Z) (prefix e1 e2 : bytes) :
  int_to_bytes_le c1 b = Ok e1 ->
  int_to_bytes_le c2 b = Ok e2 ->
  c1 <> c2 ->
  prefix ++ e1 <> prefix ++ e2.
Proof.
  intros H1 H2 Hne E. apply app_inv_head in E.
  apply int_to_bytes_le_inv in H1. apply int_to_bytes_le_inv in H2.
  destruct H1 as (_ & _ & V1). destruct H2 as (_ & _ & V2).
  apply Hne. congruence.
Qed.

Lemma nonce_hashed_message_injective_witness :
  [x70] ++ [x02; x01] <> [x70] ++ [x03; x01].
Proof.
  refine (nonce_hashed_message_injective 2 258 259 [x70]
            [x02; x01] [x03; x01] eq_refl eq_refl _).
  discriminate.
Defined.

(** ** [encrypt] and [decrypt] *)

Lemma encrypt_block_length (key block : bytes) :
  List.length (AES.encrypt_block key block) = 16%nat.
Proof.
  unfold AES.encrypt_block. cbv zeta. now rewrite length_map, length_seq.
Qed.

Lemma keystream_length (key : bytes) (cb : Z) (n : nat) :
  List.length (GCM.keystream key cb n) = n.
Proof.
  unfold GCM.keystream. rewrite length_firstn. unfold bytes.
  rewrite (concat_blocks_length _ 16%nat).
  - rewrite length_seq.
    pose proof (Nat.div_mod_eq (n + 15) 16).
    pose proof (Nat.mod_upper_bound (n + 15) 16). lia.
  - intros i. apply encrypt_block_length.
Qed.

Lemma xor_byte_twice (x k : byte) :
  Z_to_byte (Z.lxor (byte_to_Z (Z_to_byte (Z.lxor (byte_to_Z x) (byte_to_Z k))))
                    (byte_to_Z k)) = x.
Proof.
  rewrite byte_to_Z_of_Z.
  pose proof (byte_to_Z_range x) as Hx. pose proof (byte_to_Z_range k) as Hk.
  rewrite Z.mod_small
    by (change 256 with (2 ^ 8); apply lxor_range; [lia|exact Hx|exact Hk]).
  rewrite Z.lxor_assoc, Z.lxor_nilpotent, Z.lxor_0_r.
  apply Z_to_byte_to_Z.
Qed.

Lemma xor_bytes_length (a k : bytes) :
  (List.length a <= List.length k)%nat ->
  List.length (Scrypt.xor_bytes a k) = List.length a.
Proof.
  intros H. unfold Scrypt.xor_bytes. rewrite length_map, length_combine. lia.
Qed.

Lemma xor_bytes_twice (a k : bytes) :
  (List.length a <= List.length k)%nat ->
  Scrypt.xor_bytes (Scrypt.xor_bytes a k) k = a.
Proof.
  revert k. induction a as [|x a IH]; intros [|y k] H;
    try reflexivity; cbn [List.length] in H; [lia|].
  unfold Scrypt.xor_bytes in *. cbn [combine map fst snd].
  rewrite xor_byte_twice, IH by lia. reflexivity.
Qed.

Lemma crypt_length (key iv data : bytes) :
  List.length (GCM.crypt key iv data) = List.length data.
Proof.
  unfold GCM.crypt. apply xor_bytes_length. now rewrite keystream_length.
Qed.

(** The same key stream applied twice gives the data back. *)
Lemma crypt_twice (key iv data : bytes) :
  GCM.crypt key iv (GCM.crypt key iv data) = data.
Proof.
  unfold GCM.crypt at 1. rewrite crypt_length.
  unfold GCM.crypt. apply xor_bytes_twice. now rewrite keystream_length.
Qed.

Lemma tag_of_length (key iv aad ct : bytes) :
  List.length (GCM.tag_of key iv aad ct) = 16%nat.
Proof.
  unfold GCM.tag_of, GCM.bytes_of_block, be_digits. cbv zeta.
  now rewrite length_rev, le_digits_length.
Qed.

(** A key of 16, 24 or 32 bytes. *)
Lemma aes_key_size_ok_iff (key : bytes) :
  aes_key_size_ok key = true <->
  len key = 16 \/ len key = 24 \/ len key = 32.
Proof.
  unfold aes_key_size_ok. cbv zeta.
  rewrite !orb_true_iff, !Z.eqb_eq. lia.
Qed.

Lemma gcm_iv_ok_iff (iv : bytes) :
  gcm_iv_ok iv = true <-> 8 <= len iv <= 128.
Proof.
  unfold gcm_iv_ok. rewrite andb_true_iff, !Z.leb_le. reflexivity.
Qed.

Lemma encrypt_valid (key iv plaintext aad : bytes) :
  gcm_params key iv plaintext aad ->
  encrypt key iv plaintext aad =
  inr (GCM.crypt key iv plaintext,
       GCM.tag_of key iv aad (GCM.crypt key iv plaintext)).
Proof.
  intros (Hk & Hi & Ha & Hp). unfold encrypt.
  apply aes_key_size_ok_iff in Hk. apply gcm_iv_ok_iff in Hi.
  rewrite Hk, Hi. cbn [negb].
  destruct (Z.ltb_spec _MAX_AAD_BYTES (len aad)); [lia|].
  destruct (Z.ltb_spec _MAX_ENCRYPTED_BYTES (len plaintext)); [lia|].
  reflexivity.
Qed.

Lemma decrypt_valid (key iv ciphertext aad tag : bytes) :
  gcm_params key iv ciphertext aad ->
  len tag = 16 ->
  decrypt key iv ciphertext aad tag =
  if list_eq_dec byte_eq_dec (GCM.tag_of key iv aad ciphertext) tag
  then inr (GCM.crypt key iv ciphertext)
  else inl Aead.InvalidTag.
Proof.
  intros (Hk & Hi & Ha & Hp) Ht. unfold decrypt.
  apply aes_key_size_ok_iff in Hk. apply gcm_iv_ok_iff in Hi.
  rewrite Hk, Hi, Ht. cbn [negb].
  change (16 <? 16) with false. cbv iota.
  destruct (Z.ltb_spec _MAX_AAD_BYTES (len aad)); [lia|].
  destruct (Z.ltb_spec _MAX_ENCRYPTED_BYTES (len ciphertext)); [lia|].
  reflexivity.
Qed.


Lemma crypt_len (key iv data : bytes) :
  len (GCM.crypt key iv data) = len data.
Proof. unfold len. now rewrite crypt_length. Qed.

(** Test case 16 of the GCM specification: a 256-bit key, a 96-bit IV,
    sixty bytes of plaintext and twenty of associated data. *)
Example gcm_test_case_16 :
  encrypt
    (unhex "feffe9928665731c6d6a8f9467308308feffe9928665731c6d6a8f9467308308")
    (unhex "cafebabefacedbaddecaf888")
    (unhex ("d9313225f88406e5a55909c5aff5269a86a7a9531534f7da2e4c303d8a318a72"
            ++ "1c3c0c95956809532fcf0e2449a6b525b16aedf5aa0de657ba637b39"))
    (unhex "feedfacedeadbeeffeedfacedeadbeefabaddad2") =
  inr (unhex ("522dc1f099567d07f47f37a32a84427d643a8cdcbfe5c0c97598a2bd2555d1aa"
              ++ "8cb08e48590dbb3da7b08b1056828838c5f61e6393ba7a0abcc9f662"),
       unhex "76fc6ece0f4e1768cddf8853bb2d551b").
Proof. vm_compute. reflexivity. Qed.

(** X18.  With an AES key of 16, 24 or 32 bytes, an IV of 8 to 128
    bytes and data within the limits of one GCM context, [encrypt]
    returns a ciphertext as long as the plaintext and a 16-byte tag, and
    [decrypt] of that ciphertext and tag under the same key, IV and
    associated data gives the plaintext back. *)
Theorem decrypt_encrypt (key iv plaintext associated_data : bytes) :
  gcm_params key iv plaintext associated_data ->
  exists ciphertext tag : bytes,
    encrypt key iv plaintext associated_data = inr (ciphertext, tag) /\
    len ciphertext = len plaintext /\ len tag = 16 /\
    decrypt key iv ciphertext associated_data tag = inr plaintext.
Proof.
  intros P. do 2 eexists.
  split; [now apply encrypt_valid|].
  split; [apply crypt_len|].
  set (ct := GCM.crypt key iv plaintext).
  assert (Ht : len (GCM.tag_of key iv associated_data ct) = 16)
    by (unfold len; now rewrite tag_of_length).
  split; [exact Ht|].
  assert (P' : gcm_params key iv ct associated_data).
  { unfold gcm_params in *. subst ct. now rewrite crypt_len. }
  rewrite (decrypt_valid _ _ _ _ _ P' Ht).
  destruct (list_eq_dec byte_eq_dec _ _) as [_|N]; [|now elim N].
  subst ct. now rewrite crypt_twice.
Qed.

Lemma decrypt_encrypt_witness :
  exists ciphertext tag : bytes,
    encrypt (zero_bytes 32) (zero_bytes 12) [x73; x71; x72; x6c] [x61] =
      inr (ciphertext, tag) /\
    decrypt (zero_bytes 32) (zero_bytes 12) ciphertext [x61] tag =
      inr [x73; x71; x72; x6c].
Proof.
  assert (P : gcm_params (zero_bytes 32) (zero_bytes 12)
                [x73; x71; x72; x6c] [x61]).
  { split; [right; right; reflexivity|].
    split; [split; discriminate|]. split; discriminate. }
  destruct (decrypt_encrypt _ _ _ _ P) as (c & t & E & _ & _ & D).
  exists c, t. split; [exact E|exact D].
Defined.




